(** * MrHorse: the policy registry, resolver and sequential executor of
    [lib/index.js], embedded in Rocq.

    The JavaScript module keeps one process-wide [data] object (the list of
    registered names, the per-stage policy tables and the flags of the stages
    whose handler has been handed to the host), registers one policy per
    [.js] file of a directory, and at request time resolves a route's policy
    list for the current stage and runs it with [Async.eachSeries]. *)

From Stdlib Require Import ZArith String Ascii List Bool.
From stdpp Require Import base option list strings gmap.
Import ListNotations.
Open Scope string_scope.

(** ** JavaScript values *)

(** The values that reach the module through a policy's [applyPoint]
    attribute, a completion callback's arguments or a route's policy list.
    [VObj] stands for any object that is not callable (always truthy, never
    strictly equal to a string). [VUndefined] is also what reading an absent
    property yields. *)
Inductive Value : Type :=
  | VUndefined
  | VNull
  | VBool (b : bool)
  | VNum (n : Z)
  | VStr (s : string)
  | VObj (id : nat).

(** JavaScript truthiness, as tested by [if (v)], [!v] and [v || w]. *)
Definition truthy (v : Value) : bool :=
  match v with
  | VUndefined | VNull => false
  | VBool b => b
  | VNum n => negb (n =? 0)%Z
  | VStr s => negb (String.eqb s "")
  | VObj _ => true
  end.

(** [v || w]. *)
Definition js_or (v w : Value) : Value := if truthy v then v else w.

(** A policy: a JavaScript function (told apart by [policy_id]) together
    with its [applyPoint] property. *)
Record Policy : Type := mkPolicy {
  policy_id : nat;
  applyPoint : Value
}.

(** An element of a route's [plugins.policies] array: [typeof] is
    ['function'] for [DFun], and that of the value for [DVal]. *)
Inductive Directive : Type :=
  | DVal (v : Value)
  | DFun (p : Policy).

#[global] Instance Value_eq_dec : EqDecision Value.
Proof. solve_decision. Defined.

#[global] Instance Policy_eq_dec : EqDecision Policy.
Proof. solve_decision. Defined.

(** ** Apply points (lines 10-20) *)

Definition _applyPoints : list string :=
  ["onRequest"; "onPreAuth"; "onPostAuth"; "onPreHandler"; "onPostHandler";
   "onPreResponse"].

(** [Array.prototype.indexOf] on an array of strings: the first index of
    [x], or [-1]. *)
Fixpoint indexOf_from (i : Z) (l : list string) (x : string) : Z :=
  match l with
  | [] => (-1)%Z
  | y :: l' => if String.eqb y x then i else indexOf_from (i + 1)%Z l' x
  end.

Definition indexOf (l : list string) (x : string) : Z := indexOf_from 0 l x.

(** [indexOf] compares with [===], so a value that is not a string is never
    found in an array of strings. *)
Definition indexOf_value (l : list string) (v : Value) : Z :=
  match v with
  | VStr s => indexOf l s
  | _ => (-1)%Z
  end.

Definition hasValidApplyPoint (policy : Policy) : bool :=
  negb (truthy (applyPoint policy))
  || negb (indexOf_value _applyPoints (applyPoint policy) =? -1)%Z.

(** ** The registry (lines 22-31) *)

(** The module-level [data] object: the array [names], the object
    [setHandlers], and under each apply point the table of the policies
    registered for it ([buckets]). The tables are objects used as maps from
    names to policies; only their own properties are modelled, so names that
    collide with members of [Object.prototype] are left out. *)
Record Data : Type := mkData {
  names : list string;
  setHandlers : gmap string bool;
  buckets : gmap string (gmap string Policy)
}.

(** [_applyPoints.forEach(function (applyPoint) { data[applyPoint] = {}; })] *)
Definition empty_buckets : gmap string (gmap string Policy) :=
  foldl (fun m applyPoint => <[applyPoint := ∅]> m) ∅ _applyPoints.

Definition initial_data : Data :=
  {| names := []; setHandlers := ∅; buckets := empty_buckets |}.

(** [data[applyPoint]] for one of the six stages. *)
Definition bucket (d : Data) (applyPoint : string) : gmap string Policy :=
  buckets d !!! applyPoint.

(** ** The host server, as far as registration touches it *)

(** The text of an error or log entry: a string, or [prefix + value] for a
    value whose conversion to a string is left to JavaScript. *)
Inductive Message : Type :=
  | Text (s : string)
  | Concat (prefix : string) (v : Value).

(** Modelled from the spec: the host runtime ([server.ext], [server.log])
    is not part of the repository. The host lifecycle contract gives, for
    each apply point, a registration hook; [exts] lists the stages passed to
    [server.ext] in call order (each with [handlers[stage]]), [logs] the
    calls of [server.log]. *)
Record Server : Type := mkServer {
  exts : list string;
  logs : list (string * Message)
}.

Definition server_log (tag : string) (m : Message) (s : Server) : Server :=
  {| exts := exts s; logs := logs s ++ [(tag, m)] |}.

Definition server_ext (applyPoint : string) (s : Server) : Server :=
  {| exts := exts s ++ [applyPoint]; logs := logs s |}.

Record State : Type := mkState {
  data : Data;
  server : Server
}.

Definition initial_state : State :=
  {| data := initial_data; server := {| exts := []; logs := [] |} |}.

(** ** Loading policies (lines 125-181) *)

(** A directory entry: the file name returned by [Fs.readdirSync] and what
    [require] yields for it. *)
Record File : Type := mkFile {
  filename : string;
  module : Policy
}.

Definition is_line_terminator (a : ascii) : bool :=
  Ascii.eqb a "010"%char || Ascii.eqb a "013"%char.

Fixpoint take_until_terminator (l : list ascii) : list ascii :=
  match l with
  | [] => []
  | a :: l' => if is_line_terminator a then [] else a :: take_until_terminator l'
  end.

(** [filename.match(/(.+)\.js$/)], returning the first group: the name must
    end in [.js]; the group is what precedes, from the last line terminator
    on ([.] does not match one), and must not be empty. File names are byte
    strings here, with line feed and carriage return as line terminators. *)
Definition match_js (filename : string) : option string :=
  match rev (list_ascii_of_string filename) with
  | s :: j :: dot :: before =>
      if bool_decide ([dot; j; s] = list_ascii_of_string ".js") then
        match take_until_terminator before with
        | [] => None
        | group => Some (string_of_list_ascii (rev group))
        end
      else None
  | _ => None
  end.

(** The argument of [addPolicyNext]: nothing, or an [Error] with its
    message. *)
Definition Failure : Type := option Message.

(** [data[applyPoint][name] = policy] *)
Definition set_policy (applyPoint name : string) (policy : Policy) (d : Data) : Data :=
  {| names := names d;
     setHandlers := setHandlers d;
     buckets := <[applyPoint := <[name := policy]> (bucket d applyPoint)]> (buckets d) |}.

Definition push_name (name : string) (d : Data) : Data :=
  {| names := names d ++ [name];
     setHandlers := setHandlers d;
     buckets := buckets d |}.

Definition mark_handler (applyPoint : string) (d : Data) : Data :=
  {| names := names d;
     setHandlers := <[applyPoint := true]> (setHandlers d);
     buckets := buckets d |}.

(** [!data.setHandlers[applyPoint]] *)
Definition handler_unset (d : Data) (applyPoint : string) : bool :=
  match setHandlers d !! applyPoint with
  | Some b => negb b
  | None => true
  end.

(** The iterator [addPolicy] of lines 137-175. The result is [None] when the
    call does not reach [addPolicyNext]: the effective apply point is not one
    of the six stages (only possible with an invalid
    [options.defaultApplyPoint]), so that [data[applyPoint]] is not a policy
    table; the assignment throws, or lands on another member of [data]
    before the host rejects the unknown extension point. The state after
    such a call is not described. Otherwise the result is the new state and
    the argument given to [addPolicyNext]. *)
Definition addPolicy (defaultApplyPoint : Value) (file : File) (st : State)
  : option (State * Failure) :=
  match match_js (filename file) with
  | Some name =>
      if negb (indexOf (names (data st)) name =? -1)%Z then
        let m := Text ("Trying to add a duplicate policy: " ++ name) in
        Some ({| data := data st; server := server_log "error" m (server st) |}, Some m)
      else
        let d1 := push_name name (data st) in
        let policy := module file in
        if negb (hasValidApplyPoint policy) then
          let m := Concat "Trying to set incorrect applyPoint for the policy: "
                     (applyPoint policy) in
          Some ({| data := d1; server := server_log "error" m (server st) |}, Some m)
        else if bool_decide (applyPoint policy = VUndefined) || truthy (applyPoint policy) then
          let s1 := server_log "info"
                      (Text ("Adding a new PRE policy called " ++ name)) (server st) in
          match js_or (applyPoint policy) defaultApplyPoint with
          | VStr ap =>
              if negb (indexOf _applyPoints ap =? -1)%Z then
                let d2 := set_policy ap name policy d1 in
                if handler_unset d2 ap then
                  Some ({| data := mark_handler ap d2; server := server_ext ap s1 |}, None)
                else
                  Some ({| data := d2; server := s1 |}, None)
              else None
          | _ => None
          end
        else
          Some ({| data := d1; server := server st |}, None)
  | None => Some (st, None)
  end.

(** Modelled from the spec: [Async.eachSeries(arr, iterator, callback)]
    belongs to the async library, outside the repository. This is the series
    for an iterator that calls its continuation once before returning, as
    [addPolicy] does: the items are visited in order, the first failure is
    handed to the final callback and ends the iteration (fail-fast batch
    semantics). *)
Fixpoint eachSeries {A S : Type} (iterator : A -> S -> option (S * Failure))
    (arr : list A) (st : S) : option (S * Failure) :=
  match arr with
  | [] => Some (st, None)
  | x :: arr' =>
      match iterator x st with
      | Some (st', None) => eachSeries iterator arr' st'
      | r => r
      end
  end.

Record Options : Type := mkOptions {
  opt_defaultApplyPoint : Value;
  policyDirectory : list File
}.

(** [loadPolicies(server, options, next)]: the state after the call and the
    argument passed to [next]. *)
Definition loadPolicies (options : Options) (st : State) : option (State * Failure) :=
  let defaultApplyPoint := js_or (opt_defaultApplyPoint options) (VStr "onPreHandler") in
  let policyFiles := policyDirectory options in
  if (Z.of_nat (length policyFiles) =? 0)%Z then Some (st, None)
  else eachSeries (addPolicy defaultApplyPoint) policyFiles st.

(** [reset()] (lines 183-195): a fresh [data]; the host is not touched. *)
Definition reset (st : State) : State :=
  {| data := initial_data; server := server st |}.

(** [register(server, options, next)] (lines 197-217): [None] when
    [Hoek.assert] rejects the default apply point or the load throws;
    otherwise the state, the argument of [next] and the default apply point
    exposed on the server, which the handlers read at request time. *)
Definition register (options_defaultApplyPoint : Value)
    (options_policyDirectory : option (list File)) (st : State)
  : option (State * Failure * Value) :=
  let defaultApplyPoint := js_or options_defaultApplyPoint (VStr "onPreHandler") in
  if (indexOf_value _applyPoints defaultApplyPoint =? -1)%Z then None
  else
    match options_policyDirectory with
    | Some files =>
        match loadPolicies (mkOptions defaultApplyPoint files) st with
        | Some (st', err) => Some (st', err, defaultApplyPoint)
        | None => None
        end
    | None => Some (st, None, defaultApplyPoint)
    end.

(** ** The reply interface *)

(** What is handed to [reply(...)]: a policy's own error object, or one of
    the Boom errors the module builds. *)
Inductive Response : Type :=
  | Custom (err : Value)
  | Forbidden (message : Value)
  | NotImplemented (m : Message)
  | BadImplementation (m : Message).

Inductive Outcome : Type :=
  | Replied (e : Response)
  | Continued.

(** Modelled from the spec: the host's reply interface is not part of the
    repository. By the host lifecycle contract it lets a callback continue
    to the next stage, finalize the request with an outcome, and query
    whether the request has already been finalized: [_replied] is that
    query, set by [reply(err)] and by [reply.continue()]; [sent] records,
    in order, the outcomes this module handed to the interface. *)
Record Reply : Type := mkReply {
  _replied : bool;
  sent : list Outcome
}.

Definition fresh_reply : Reply := {| _replied := false; sent := [] |}.

Definition reply_with (e : Response) (r : Reply) : Reply :=
  {| _replied := true; sent := sent r ++ [Replied e] |}.

Definition reply_continue (r : Reply) : Reply :=
  {| _replied := true; sent := sent r ++ [Continued] |}.

(** The response is finalized by somebody else (a policy that replies on its
    own, the host). *)
Definition finalize_elsewhere (r : Reply) : Reply :=
  {| _replied := true; sent := sent r |}.

(** ** Running policies (lines 33-61) *)

(** The callback a policy is given (lines 37-47), as the argument it passes
    to [next]: [None] for [next(null, true)]. *)
Definition checkPolicy (err canContinue message : Value) : option Response :=
  if truthy err then Some (Custom err)
  else if truthy canContinue then None
  else Some (Forbidden message).

(** The final callback of lines 51-60. *)
Definition final_callback (err : option Response) (r : Reply) : Reply :=
  if negb (_replied r) then
    match err with
    | Some e => reply_with e r
    | None => reply_continue r
    end
  else r.

(** One run of [runPolicies]: the array given to [Async.eachSeries], its
    counter [completed], whether its [callback] is still the final callback,
    the reply interface, and the policies called so far, in call order. *)
Record Exec : Type := mkExec {
  policiesToRun : list Policy;
  completed : nat;
  callback_live : bool;
  reply : Reply;
  invoked : list Policy
}.

Definition set_reply (r : Reply) (x : Exec) : Exec :=
  mkExec (policiesToRun x) (completed x) (callback_live x) r (invoked x).

(** Nothing is in flight: no policy holds a completion callback. *)
Definition idle (r : Reply) : Exec := mkExec [] 0 false r [].

Definition call_callback (err : option Response) (x : Exec) : Exec :=
  if callback_live x then set_reply (final_callback err (reply x)) x else x.

(** [iterate()]: call [checkPolicy] on [arr[completed]], which calls the
    policy. *)
Definition iterate (x : Exec) : Exec :=
  match policiesToRun x !! completed x with
  | Some policy =>
      mkExec (policiesToRun x) (completed x) (callback_live x) (reply x)
             (invoked x ++ [policy])
  | None => x
  end.

(** Modelled from the spec: [Async.eachSeries] belongs to the async
    library, outside the repository. Its iteration follows the executor's
    state machine: the array is visited in order, one policy in flight at a
    time; an empty array completes at once; a completion signal with an
    error calls the final callback with it and ends the series (the callback
    is disarmed), one without error advances to the next policy, or calls the
    final callback with nothing after the last one. [next] is the
    continuation handed to [checkPolicy]. *)
Definition next (err : option Response) (x : Exec) : Exec :=
  match err with
  | Some e =>
      let x1 := call_callback (Some e) x in
      mkExec (policiesToRun x1) (completed x1) false (reply x1) (invoked x1)
  | None =>
      let x1 := mkExec (policiesToRun x) (S (completed x)) (callback_live x)
                       (reply x) (invoked x) in
      if (length (policiesToRun x1) <=? completed x1)%nat then call_callback None x1
      else iterate x1
  end.

Definition runPolicies (policiesToRun : list Policy) (r : Reply) : Exec :=
  match policiesToRun with
  | [] => idle (final_callback None r)
  | _ => iterate (mkExec policiesToRun 0 true r [])
  end.

(** What can happen to a run from outside: a policy that has been called
    signals completion with [(err, canContinue, message)], or the response is
    finalized through another path. *)
Inductive Event : Type :=
  | Signal (err canContinue message : Value)
  | FinalizedElsewhere.

Definition step (x : Exec) (e : Event) : Exec :=
  match e with
  | Signal err canContinue message =>
      match invoked x with
      | [] => x
      | _ => next (checkPolicy err canContinue message) x
      end
  | FinalizedElsewhere => set_reply (finalize_elsewhere (reply x)) x
  end.

Definition run (x : Exec) (events : list Event) : Exec := foldl step x events.

(** ** The stage handlers (lines 63-123) *)

(** The accumulator of the [reduce] of lines 76-114 with the variables its
    callback closes over. *)
Record Reduce : Type := mkReduce {
  repliedWithError : bool;
  tmpList : list Policy;
  reduce_reply : Reply
}.

Definition fail_with (e : Response) (acc : Reduce) : Reduce :=
  mkReduce true (tmpList acc) (reply_with e (reduce_reply acc)).

Definition push (policy : Policy) (acc : Reduce) : Reduce :=
  mkReduce (repliedWithError acc) (tmpList acc ++ [policy]) (reduce_reply acc).

Definition reduce_step (stage : string) (d : Data) (defaultApplyPoint : Value)
    (acc : Reduce) (routePolicy : Directive) : Reduce :=
  if repliedWithError acc then acc
  else
    match routePolicy with
    | DVal (VStr name) =>
        if (indexOf (names d) name =? -1)%Z then
          fail_with (NotImplemented (Text ("Missing policy: " ++ name))) acc
        else
          match bucket d stage !! name with
          | Some policy => push policy acc
          | None => acc
          end
    | DFun routePolicy =>
        if negb (hasValidApplyPoint routePolicy) then
          fail_with (BadImplementation
                       (Concat "Trying to use incorrect applyPoint for the dynamic policy: "
                               (applyPoint routePolicy))) acc
        else
          let effectiveApplyPoint := js_or (applyPoint routePolicy) defaultApplyPoint in
          if bool_decide (effectiveApplyPoint = VStr stage) then push routePolicy acc
          else acc
    | DVal _ =>
        fail_with (BadImplementation (Text "Policy not specified by name or by function.")) acc
    end.

(** The body of [handlers[applyPoint]], with [stage] for the [applyPoint]
    it closes over. [routePolicies] is [None] when
    [Hoek.reach] finds nothing truthy; [defaultApplyPoint] is the value the
    plugin exposes on the server. *)
Definition handler (stage : string) (d : Data) (defaultApplyPoint : Value)
    (routePolicies : option (list Directive)) (r : Reply) : Exec :=
  match routePolicies with
  | None => idle (reply_continue r)
  | Some routePolicies =>
      let acc := foldl (reduce_step stage d defaultApplyPoint)
                       (mkReduce false [] r) routePolicies in
      if repliedWithError acc then idle (reduce_reply acc)
      else runPolicies (tmpList acc) (reduce_reply acc)
  end.

(** [handlers] has one entry per apply point and no other. *)
Definition handlers (applyPoint : string)
  : option (Data -> Value -> option (list Directive) -> Reply -> Exec) :=
  if (indexOf _applyPoints applyPoint =? -1)%Z then None
  else Some (handler applyPoint).

(** Modelled from the spec: the host lifecycle is not part of the
    repository. When a request reaches a stage, the host calls the handler
    registered for that stage through [server.ext]; at a stage without one,
    nothing of this module runs. *)
Definition stage_entry (st : State) (applyPoint : string) (defaultApplyPoint : Value)
    (routePolicies : option (list Directive)) (r : Reply) : option Exec :=
  if bool_decide (applyPoint ∈ exts (server st)) then
    match handlers applyPoint with
    | Some h => Some (h (data st) defaultApplyPoint routePolicies r)
    | None => None
    end
  else None.

(** ** Notions used in the statements *)

(** The policy a route entry contributes at [stage] when it targets that
    stage: a registered name found in the stage's table, or an inline
    function with a valid apply point whose effective apply point is the
    stage. *)
Definition target_policy (stage : string) (d : Data) (defaultApplyPoint : Value)
    (directive : Directive) : option Policy :=
  match directive with
  | DVal (VStr name) =>
      if bool_decide (name ∈ names d) then bucket d stage !! name else None
  | DVal _ => None
  | DFun policy =>
      if hasValidApplyPoint policy
         && bool_decide (js_or (applyPoint policy) defaultApplyPoint = VStr stage)
      then Some policy
      else None
  end.

(** A route entry the handlers resolve without replying with an error: a
    registered name, or a function with a valid apply point. *)
Definition resolvable (d : Data) (directive : Directive) : bool :=
  match directive with
  | DVal (VStr name) => bool_decide (name ∈ names d)
  | DVal _ => false
  | DFun policy => hasValidApplyPoint policy
  end.

(** A completion signal that lets the request pass: no error and a truthy
    [canContinue]. *)
Definition is_continue (e : Event) : bool :=
  match e with
  | Signal err canContinue _ => negb (truthy err) && truthy canContinue
  | FinalizedElsewhere => false
  end.

(** The file name ends in [.js]. *)
Definition ends_in_js (filename : string) : Prop :=
  list_ascii_of_string ".js" `suffix_of` list_ascii_of_string filename.

#[global] Instance ends_in_js_dec filename : Decision (ends_in_js filename).
Proof. unfold ends_in_js. apply _. Defined.

(** [data.setHandlers[V]] is set. *)
Definition flag_set (d : Data) (V : string) : Prop := setHandlers d !! V = Some true.

(** Some policy is registered for stage [V]. *)
Definition targeted (d : Data) (V : string) : Prop :=
  exists name policy, bucket d V !! name = Some policy.

(** The flags agree with the tables, and a flagged stage has its handler
    at the host. *)
Record consistent (st : State) : Prop := mkConsistent {
  flag_iff_targeted : forall V, flag_set (data st) V <-> targeted (data st) V;
  flag_installed : forall V, flag_set (data st) V -> V ∈ exts (server st)
}.

(** Without a [reset] since the module was loaded, the host has exactly the
    handlers of the flagged stages, once each. *)
Record exact (st : State) : Prop := mkExact {
  installed_flag : forall V, V ∈ exts (server st) -> flag_set (data st) V;
  installed_once : NoDup (exts (server st))
}.

(** What the owner of the module can do with it between requests: load a
    directory of policies (registration of the plugin does that too), or
    reset. *)
Inductive Op : Type :=
  | Load (options : Options)
  | Reset.

#[global] Instance Op_is_reset_dec (op : Op) : Decision (op = Reset).
Proof. destruct op; [right; discriminate | by left]. Defined.

Definition apply_op (st : State) (op : Op) : option State :=
  match op with
  | Load options => fst <$> loadPolicies options st
  | Reset => Some (reset st)
  end.

(** The state after a sequence of operations, [None] if one of them throws. *)
Fixpoint history (ops : list Op) (st : State) : option State :=
  match ops with
  | [] => Some st
  | op :: ops' =>
      match apply_op st op with
      | Some st' => history ops' st'
      | None => None
      end
  end.

(** The host has a handler of this module at stage [V]. *)
Definition dispatcher_installed (st : State) (V : string) : Prop :=
  V ∈ exts (server st).

(** The registry is well formed: no name is listed twice; every entry of a
    stage's table is listed in [names], sits under one of the six stages and
    under no other table, and the policy it holds names that stage as its
    apply point or names none; the host was only given stages. *)
Record well_formed (st : State) : Prop := mkWellFormed {
  names_nodup : NoDup (names (data st));
  table_names : forall V name policy,
    bucket (data st) V !! name = Some policy -> name ∈ names (data st);
  table_stage : forall V name policy,
    bucket (data st) V !! name = Some policy ->
    V ∈ _applyPoints /\ (applyPoint policy = VStr V \/ applyPoint policy = VUndefined);
  table_unique : forall V W name p q,
    bucket (data st) V !! name = Some p -> bucket (data st) W !! name = Some q -> V = W;
  exts_stages : forall V, V ∈ exts (server st) -> V ∈ _applyPoints
}.

(** Everything registered in [st] is still registered in [st']: names,
    table entries, flags and installed handlers. *)
Definition extends (st st' : State) : Prop :=
  names (data st) `prefix_of` names (data st')
  /\ (forall V name policy,
        bucket (data st) V !! name = Some policy ->
        bucket (data st') V !! name = Some policy)
  /\ (forall V, flag_set (data st) V -> flag_set (data st') V)
  /\ exts (server st) `prefix_of` exts (server st').


(** The policy names of a directory listing, in listing order. *)
Definition policy_names (files : list File) : list string :=
  omap (fun file => match_js (filename file)) files.

(** ** Sample policies, directories and states *)

Definition passes : Policy := mkPolicy 1 VUndefined.
Definition denies : Policy := mkPolicy 2 VUndefined.
Definition third : Policy := mkPolicy 3 VUndefined.
Definition disabled : Policy := mkPolicy 4 (VBool false).
Definition misplaced : Policy := mkPolicy 5 (VStr "onEverything").

Definition inline_denies : Policy := mkPolicy 6 (VStr "onPreHandler").
Definition post_auth : Policy := mkPolicy 7 (VStr "onPostAuth").

Definition one_policy_dir : Options :=
  mkOptions VUndefined [mkFile "passes.js" passes].

Definition after_one_policy : State :=
  {| data := mark_handler "onPreHandler"
               (set_policy "onPreHandler" "passes" passes (push_name "passes" initial_data));
     server := server_ext "onPreHandler"
                 (server_log "info" (Text "Adding a new PRE policy called passes")
                    (server initial_state)) |}.

Definition after_post_auth_policy : State :=
  {| data := mark_handler "onPostAuth"
               (set_policy "onPostAuth" "post_auth" post_auth
                  (push_name "post_auth" initial_data));
     server := server_ext "onPostAuth"
                 (server_log "info" (Text "Adding a new PRE policy called post_auth")
                    (server initial_state)) |}.

(** * Properties *)

(** Closes a decidable goal on concrete data by evaluating its decision
    procedure. *)
Ltac decided :=
  first [ apply (bool_decide_eq_true_1 _); reflexivity
        | apply (bool_decide_eq_false_1 _); reflexivity ].

(** ** Arrays of strings *)

Lemma indexOf_from_spec (l : list string) (x : string) (i : Z) :
  (0 <= i)%Z ->
  (x ∈ l -> (i <= indexOf_from i l x)%Z) /\ (x ∉ l -> indexOf_from i l x = (-1)%Z).
Proof.
  revert i. induction l as [|y l IH]; intros i Hi; simpl.
  - split; [intros H; inversion H | reflexivity].
  - destruct (String.eqb_spec y x) as [->|Hne].
    + split; [lia | intros H; exfalso; apply H; left].
    + destruct (IH (i + 1)%Z ltac:(lia)) as [IH1 IH2]. split.
      * intros H. apply elem_of_cons in H as [->|H]; [congruence|].
        specialize (IH1 H). lia.
      * intros H. apply IH2. intros H'. apply H. by right.
Qed.

Lemma indexOf_absent (l : list string) (x : string) :
  x ∉ l -> (indexOf l x =? -1)%Z = true.
Proof.
  intros H. apply Z.eqb_eq. by apply (indexOf_from_spec l x 0).
Qed.

Lemma indexOf_present (l : list string) (x : string) :
  x ∈ l -> (indexOf l x =? -1)%Z = false.
Proof.
  intros H. apply Z.eqb_neq.
  pose proof (proj1 (indexOf_from_spec l x 0 ltac:(lia)) H). unfold indexOf. lia.
Qed.

Lemma indexOf_elem_of (l : list string) (x : string) :
  (indexOf l x =? -1)%Z = false <-> x ∈ l.
Proof.
  split; [|apply indexOf_present].
  intros H. destruct (decide (x ∈ l)) as [|Hn]; [done|].
  rewrite (indexOf_absent _ _ Hn) in H. discriminate.
Qed.

Lemma hasValidApplyPoint_spec (policy : Policy) :
  hasValidApplyPoint policy = true <->
  truthy (applyPoint policy) = false \/
  exists s, applyPoint policy = VStr s /\ s ∈ _applyPoints.
Proof.
  unfold hasValidApplyPoint. rewrite orb_true_iff, !negb_true_iff. split.
  - intros [H|H]; [by left|]. right.
    destruct (applyPoint policy) as [| | | |s|]; simpl in H;
      try discriminate.
    exists s. split; [done|]. by apply indexOf_elem_of.
  - intros [H|[s [-> H]]]; [by left|]. right. simpl. by apply indexOf_elem_of.
Qed.

(** ** File names *)

Lemma match_js_ends_in_js (filename name : string) :
  match_js filename = Some name -> ends_in_js filename.
Proof.
  unfold match_js, ends_in_js.
  destruct (rev (list_ascii_of_string filename)) as [|s [|j [|dot before]]] eqn:E;
    try discriminate.
  case_bool_decide as Hjs; [|discriminate]. intros _.
  apply (f_equal (@rev ascii)) in E. rewrite rev_involutive in E.
  rewrite E, <- Hjs. exists (rev before). simpl. by rewrite <- !app_assoc.
Qed.

Lemma match_js_not_js (filename : string) :
  ~ ends_in_js filename -> match_js filename = None.
Proof.
  intros H. destruct (match_js filename) as [name|] eqn:E; [|done].
  exfalso. apply H. by eapply match_js_ends_in_js.
Qed.

(** ** Bulk loading is a fold that stops at the first failure *)

Lemma loadPolicies_eachSeries (options : Options) (st : State) :
  loadPolicies options st =
  eachSeries (addPolicy (js_or (opt_defaultApplyPoint options) (VStr "onPreHandler")))
             (policyDirectory options) st.
Proof. unfold loadPolicies. by destruct (policyDirectory options). Qed.

Section EachSeries.
Context {A S : Type} (iterator : A -> S -> option (S * Failure)).

Lemma eachSeries_app_ok (l1 l2 : list A) (st st1 : S) :
  eachSeries iterator l1 st = Some (st1, None) ->
  eachSeries iterator (l1 ++ l2) st = eachSeries iterator l2 st1.
Proof.
  revert st. induction l1 as [|x l1 IH]; intros st H; simpl in *.
  - by inversion H.
  - destruct (iterator x st) as [[st' [m|]]|]; try discriminate. by apply IH.
Qed.

Lemma eachSeries_app_failed (l1 l2 : list A) (st st1 : S) (m : Message) :
  eachSeries iterator l1 st = Some (st1, Some m) ->
  eachSeries iterator (l1 ++ l2) st = Some (st1, Some m).
Proof.
  revert st. induction l1 as [|x l1 IH]; intros st H; simpl in *.
  - discriminate.
  - destruct (iterator x st) as [[st' [m'|]]|]; try discriminate; [done|].
    by apply IH.
Qed.

Lemma eachSeries_cons_failed (x : A) (l : list A) (st st1 : S) (m : Message) :
  iterator x st = Some (st1, Some m) ->
  eachSeries iterator (x :: l) st = Some (st1, Some m).
Proof. intros H. simpl. by rewrite H. Qed.

(** A property kept by every call of the iterator is kept by the series. *)
Lemma eachSeries_preserves (P : S -> Prop) :
  (forall x st st' f, P st -> iterator x st = Some (st', f) -> P st') ->
  forall l st st' f, P st -> eachSeries iterator l st = Some (st', f) -> P st'.
Proof.
  intros Hstep l. induction l as [|x l IH]; intros st st' f HP H; simpl in H.
  - by inversion H; subst.
  - destruct (iterator x st) as [[st1 [m|]]|] eqn:E; try discriminate.
    + inversion H; subst. by eapply Hstep.
    + eapply IH; [|done]. by eapply Hstep.
Qed.
End EachSeries.

(** ** The cases of [addPolicy] *)

Lemma addPolicy_skip (dflt : Value) (file : File) (st : State) :
  match_js (filename file) = None -> addPolicy dflt file st = Some (st, None).
Proof. intros H. unfold addPolicy. by rewrite H. Qed.

Lemma addPolicy_duplicate (dflt : Value) (file : File) (st : State) (name : string) :
  match_js (filename file) = Some name ->
  name ∈ names (data st) ->
  addPolicy dflt file st =
  Some ({| data := data st;
           server := server_log "error"
                       (Text ("Trying to add a duplicate policy: " ++ name)) (server st) |},
        Some (Text ("Trying to add a duplicate policy: " ++ name))).
Proof.
  intros Hm Hin. unfold addPolicy. rewrite Hm.
  by rewrite (indexOf_present _ _ Hin).
Qed.

Lemma addPolicy_invalid (dflt : Value) (file : File) (st : State) (name : string) :
  match_js (filename file) = Some name ->
  name ∉ names (data st) ->
  hasValidApplyPoint (module file) = false ->
  addPolicy dflt file st =
  Some ({| data := push_name name (data st);
           server := server_log "error"
                       (Concat "Trying to set incorrect applyPoint for the policy: "
                               (applyPoint (module file))) (server st) |},
        Some (Concat "Trying to set incorrect applyPoint for the policy: "
                     (applyPoint (module file)))).
Proof.
  intros Hm Hin Hv. unfold addPolicy. rewrite Hm.
  rewrite (indexOf_absent _ _ Hin). simpl. by rewrite Hv.
Qed.

Lemma addPolicy_disabled (dflt : Value) (file : File) (st : State) (name : string) :
  match_js (filename file) = Some name ->
  name ∉ names (data st) ->
  truthy (applyPoint (module file)) = false ->
  applyPoint (module file) <> VUndefined ->
  addPolicy dflt file st =
  Some ({| data := push_name name (data st); server := server st |}, None).
Proof.
  intros Hm Hin Ht Hu. unfold addPolicy. rewrite Hm.
  rewrite (indexOf_absent _ _ Hin). simpl.
  unfold hasValidApplyPoint. rewrite Ht. simpl.
  by rewrite bool_decide_eq_false_2.
Qed.

(** With a default apply point that is one of the six stages, as [register]
    asserts, registration never throws. *)
Lemma addPolicy_returns (dflt : Value) (file : File) (st : State) (stage : string) :
  dflt = VStr stage -> stage ∈ _applyPoints ->
  exists st' err, addPolicy dflt file st = Some (st', err).
Proof.
  intros -> Hstage. unfold addPolicy.
  destruct (match_js (filename file)) as [name|]; [|eauto].
  destruct (negb (indexOf (names (data st)) name =? -1)%Z); [eauto|].
  destruct (hasValidApplyPoint (module file)) eqn:Hvalid; simpl; [|eauto].
  destruct (_ || _); [|eauto].
  apply hasValidApplyPoint_spec in Hvalid as [Hfalsy|(s & Hs & Hin)].
  - unfold js_or. rewrite Hfalsy. rewrite (indexOf_present _ _ Hstage). simpl.
    destruct (handler_unset _ stage); eauto.
  - unfold js_or. rewrite Hs. destruct (truthy (VStr s)).
    + rewrite (indexOf_present _ _ Hin). simpl.
      destruct (handler_unset _ s); eauto.
    + rewrite (indexOf_present _ _ Hstage). simpl.
      destruct (handler_unset _ stage); eauto.
Qed.

Lemma loadPolicies_returns (options : Options) (st : State) (stage : string) :
  js_or (opt_defaultApplyPoint options) (VStr "onPreHandler") = VStr stage ->
  stage ∈ _applyPoints ->
  exists st' err, loadPolicies options st = Some (st', err).
Proof.
  intros Hd Hstage. rewrite loadPolicies_eachSeries.
  generalize (policyDirectory options). intros files. revert st.
  induction files as [|file files IH]; intros st; simpl; [eauto|].
  destruct (addPolicy_returns _ file st stage Hd Hstage) as (st' & [m|] & ->);
    eauto.
Qed.

Lemma register_returns (dflt : Value) (dir : option (list File)) (st : State) :
  (indexOf_value _applyPoints (js_or dflt (VStr "onPreHandler")) =? -1)%Z = false ->
  exists st' err stage,
    register dflt dir st = Some (st', err, VStr stage) /\ stage ∈ _applyPoints.
Proof.
  intros Hvalid. unfold register. rewrite Hvalid.
  destruct (js_or dflt (VStr "onPreHandler")) as [| | | |stage|] eqn:Hd;
    try discriminate.
  simpl in Hvalid. apply indexOf_elem_of in Hvalid.
  destruct dir as [files|]; [|eauto 10].
  destruct (loadPolicies_returns (mkOptions (VStr stage) files) st stage)
    as (st' & err & ->); [|done|eauto 10].
  simpl. unfold js_or. simpl.
  destruct stage; [|done]. inversion Hvalid as [|? ? ? H]; subst.
  repeat (inversion H as [|? ? ? H']; subst; clear H; rename H' into H).
Qed.

(** ** Flags, tables and installed handlers *)

Lemma handler_unset_false (d : Data) (V : string) :
  handler_unset d V = false <-> flag_set d V.
Proof.
  unfold handler_unset, flag_set. destruct (setHandlers d !! V) as [[]|]; naive_solver.
Qed.

Lemma bucket_set_policy_eq (ap name : string) (policy : Policy) (d : Data) :
  bucket (set_policy ap name policy d) ap = <[name := policy]> (bucket d ap).
Proof. unfold bucket, set_policy. simpl. by rewrite lookup_total_insert_eq. Qed.

Lemma bucket_set_policy_ne (ap V name : string) (policy : Policy) (d : Data) :
  ap <> V -> bucket (set_policy ap name policy d) V = bucket d V.
Proof. intros H. unfold bucket, set_policy. simpl. by rewrite lookup_total_insert_ne. Qed.

Lemma targeted_set_policy (ap V name : string) (policy : Policy) (d : Data) :
  targeted (set_policy ap name policy d) V <-> V = ap \/ targeted d V.
Proof.
  unfold targeted. destruct (decide (ap = V)) as [<-|Hne].
  - rewrite bucket_set_policy_eq. split; [by left|]. intros _.
    exists name, policy. by rewrite lookup_insert_eq.
  - rewrite bucket_set_policy_ne by done. split; [by right|].
    by intros [->|].
Qed.

Lemma flag_set_mark_handler (ap V : string) (d : Data) :
  flag_set (mark_handler ap d) V <-> V = ap \/ flag_set d V.
Proof.
  unfold flag_set, mark_handler. simpl. destruct (decide (ap = V)) as [<-|Hne].
  - rewrite lookup_insert_eq. naive_solver.
  - rewrite lookup_insert_ne by done. split; [by right|].
    by intros [->|].
Qed.

(** What one call of [addPolicy] does to the tables, the flags and the host:
    nothing, or a registration at one stage [ap], with [server.ext] called
    exactly when the flag of [ap] was not set. *)
Lemma addPolicy_effect (dflt : Value) (file : File) (st st' : State) (f : Failure) :
  addPolicy dflt file st = Some (st', f) ->
  (buckets (data st') = buckets (data st) /\
   setHandlers (data st') = setHandlers (data st) /\
   exts (server st') = exts (server st))
  \/
  (exists ap name,
     f = None /\ ap ∈ _applyPoints /\
     (forall V, targeted (data st') V <-> V = ap \/ targeted (data st) V) /\
     (forall V, flag_set (data st') V <-> V = ap \/ flag_set (data st) V) /\
     match_js (filename file) = Some name /\
     js_or (applyPoint (module file)) dflt = VStr ap /\
     exts (server st') =
       if handler_unset (data st) ap then (exts (server st) ++ [ap])%list
       else exts (server st)).
Proof.
  unfold addPolicy. destruct (match_js (filename file)) as [name|] eqn:Hm.
  2:{ intros [= <- <-]. by left. }
  destruct (negb _) eqn:Hdup.
  { intros [= <- <-]. by left. }
  destruct (negb (hasValidApplyPoint _)) eqn:Hvalid.
  { intros [= <- <-]. by left. }
  destruct (_ || _) eqn:Hon.
  2:{ intros [= <- <-]. by left. }
  destruct (js_or _ _) as [| | | |ap|] eqn:Hap; try discriminate.
  destruct (negb (indexOf _applyPoints ap =? -1)%Z) eqn:Hstage; [|discriminate].
  apply negb_true_iff, indexOf_elem_of in Hstage.
  set (d2 := set_policy ap name (module file) (push_name name (data st))).
  assert (Hunset : handler_unset d2 ap = handler_unset (data st) ap) by done.
  assert (Htargeted : forall V, targeted d2 V <-> V = ap \/ targeted (data st) V).
  { intros V. unfold d2. by rewrite targeted_set_policy. }
  rewrite Hunset. destruct (handler_unset (data st) ap) eqn:Hu.
  - intros [= <- <-]. right. exists ap, name. cbn [data server exts].
    rewrite Hu. split_and!; try done. intros V. by rewrite flag_set_mark_handler.
  - intros [= <- <-]. right. exists ap, name. cbn [data server exts].
    rewrite Hu. split_and!; try done. intros V.
    apply handler_unset_false in Hu. unfold flag_set in *. simpl.
    split; [by right|]. by intros [->|].
Qed.

Lemma addPolicy_consistent (dflt : Value) (file : File) (st st' : State) (f : Failure) :
  consistent st -> addPolicy dflt file st = Some (st', f) -> consistent st'.
Proof.
  intros [Hiff Hinst] H. apply addPolicy_effect in H as [(Hb & Hs & He)|H].
  - split; intros V.
    + unfold flag_set, targeted, bucket. rewrite Hb, Hs. apply Hiff.
    + unfold flag_set. rewrite Hs, He. apply Hinst.
  - destruct H as (ap & name & _ & _ & Ht & Hf & _ & _ & He). split; intros V.
    + rewrite Ht, Hf, Hiff. done.
    + rewrite Hf, He. intros [->|HV].
      * destruct (handler_unset (data st) ap) eqn:Hu.
        -- apply elem_of_app. right. by apply list_elem_of_singleton.
        -- by apply Hinst, handler_unset_false.
      * specialize (Hinst V HV). destruct (handler_unset (data st) ap); [|done].
        apply elem_of_app. by left.
Qed.

Lemma addPolicy_exact (dflt : Value) (file : File) (st st' : State) (f : Failure) :
  exact st -> addPolicy dflt file st = Some (st', f) -> exact st'.
Proof.
  intros [Hflag Hnodup] H. apply addPolicy_effect in H as [(Hb & Hs & He)|H].
  - split.
    + intros V. unfold flag_set. rewrite Hs, He. apply Hflag.
    + by rewrite He.
  - destruct H as (ap & name & _ & _ & _ & Hf & _ & _ & He).
    destruct (handler_unset (data st) ap) eqn:Hu; split.
    + intros V HV. rewrite He in HV. rewrite Hf.
      apply elem_of_app in HV as [HV|HV].
      * right. by apply Hflag.
      * left. by apply list_elem_of_singleton in HV.
    + rewrite He. apply NoDup_app. split_and!; [done| |apply NoDup_singleton].
      intros V HV HV'. apply list_elem_of_singleton in HV' as ->.
      apply Hflag in HV. apply (proj2 (handler_unset_false _ _)) in HV. congruence.
    + intros V HV. rewrite He in HV. rewrite Hf. right. by apply Hflag.
    + by rewrite He.
Qed.

(** ** Histories of the module *)

Lemma bucket_initial (V : string) : bucket initial_data V = ∅.
Proof.
  unfold bucket, initial_data, empty_buckets. simpl.
  rewrite lookup_total_alt, !lookup_insert, lookup_empty.
  by repeat case_decide.
Qed.

Lemma initial_not_targeted (V : string) : ~ targeted initial_data V.
Proof. intros (name & policy & H). by rewrite bucket_initial, lookup_empty in H. Qed.

Lemma initial_consistent : consistent initial_state.
Proof.
  split; intros V.
  - unfold flag_set. simpl. rewrite lookup_empty. split; [done|].
    intros H. by apply initial_not_targeted in H.
  - unfold flag_set. simpl. by rewrite lookup_empty.
Qed.

Lemma initial_exact : exact initial_state.
Proof. split; [intros V H; inversion H | apply NoDup_nil_2]. Qed.

Lemma reset_consistent (st : State) : consistent (reset st).
Proof.
  split; intros V.
  - unfold flag_set. simpl. rewrite lookup_empty. split; [done|].
    intros H. by apply initial_not_targeted in H.
  - unfold flag_set. simpl. by rewrite lookup_empty.
Qed.

Lemma loadPolicies_consistent (options : Options) (st st' : State) (f : Failure) :
  consistent st -> loadPolicies options st = Some (st', f) -> consistent st'.
Proof.
  rewrite loadPolicies_eachSeries. apply eachSeries_preserves.
  intros file s s' f'. apply addPolicy_consistent.
Qed.

Lemma loadPolicies_exact (options : Options) (st st' : State) (f : Failure) :
  exact st -> loadPolicies options st = Some (st', f) -> exact st'.
Proof.
  rewrite loadPolicies_eachSeries. apply eachSeries_preserves.
  intros file s s' f'. apply addPolicy_exact.
Qed.

Lemma history_consistent (ops : list Op) (st st' : State) :
  consistent st -> history ops st = Some st' -> consistent st'.
Proof.
  revert st. induction ops as [|op ops IH]; intros st Hc H; simpl in H.
  - by inversion H; subst.
  - destruct op as [options|]; simpl in H.
    + destruct (loadPolicies options st) as [[st1 f]|] eqn:E; [|discriminate].
      simpl in H. eapply IH; [|done]. by eapply loadPolicies_consistent.
    + eapply IH; [|done]. apply reset_consistent.
Qed.

Lemma history_exact (ops : list Op) (st st' : State) :
  Reset ∉ ops -> exact st -> history ops st = Some st' -> exact st'.
Proof.
  revert st. induction ops as [|op ops IH]; intros st Hr Hc H; simpl in H.
  - by inversion H; subst.
  - apply not_elem_of_cons in Hr as [Hop Hr].
    destruct op as [options|]; [|done]. simpl in H.
    destruct (loadPolicies options st) as [[st1 f]|] eqn:E; [|discriminate].
    simpl in H. eapply IH; [done| |done]. by eapply loadPolicies_exact.
Qed.

(** ** Registration: the claims *)

Lemma load_one_policy :
  loadPolicies one_policy_dir initial_state = Some (after_one_policy, None).
Proof. reflexivity. Qed.

(** C6. Registering a file whose policy name is already in [data.names]
    fails with the duplicate-policy error and leaves [data] (names, tables,
    flags) and the host's handlers as they were; loading a directory that
    holds just that file reports the same error with the same [data]. *)
Theorem duplicate_name_rejected (dflt : Value) (file : File) (st : State) (name : string) :
  match_js (filename file) = Some name ->
  name ∈ names (data st) ->
  exists st',
    addPolicy (js_or dflt (VStr "onPreHandler")) file st
      = Some (st', Some (Text ("Trying to add a duplicate policy: " ++ name)))
    /\ loadPolicies (mkOptions dflt [file]) st
      = Some (st', Some (Text ("Trying to add a duplicate policy: " ++ name)))
    /\ data st' = data st
    /\ exts (server st') = exts (server st).
Proof.
  intros Hm Hin. eexists. split; [by apply addPolicy_duplicate|].
  split; [|done]. rewrite loadPolicies_eachSeries. simpl.
  by rewrite (addPolicy_duplicate _ _ _ _ Hm Hin).
Qed.

(** Instance: a second file named [passes.js] after [passes] is registered. *)
Lemma duplicate_name_rejected_witness :
  match_js "passes.js" = Some "passes" /\
  "passes" ∈ names (data after_one_policy) /\
  exists st',
    addPolicy (js_or VUndefined (VStr "onPreHandler")) (mkFile "passes.js" denies)
              after_one_policy
      = Some (st', Some (Text ("Trying to add a duplicate policy: " ++ "passes")))
    /\ loadPolicies (mkOptions VUndefined [mkFile "passes.js" denies]) after_one_policy
      = Some (st', Some (Text ("Trying to add a duplicate policy: " ++ "passes")))
    /\ data st' = data after_one_policy
    /\ exts (server st') = exts (server after_one_policy).
Proof.
  assert (Hm : match_js (filename (mkFile "passes.js" denies)) = Some "passes")
    by reflexivity.
  assert (Hin : "passes" ∈ names (data after_one_policy)).
  { decided. }
  split; [exact Hm|]. split; [exact Hin|].
  exact (duplicate_name_rejected VUndefined (mkFile "passes.js" denies)
           after_one_policy "passes" Hm Hin).
Defined.

(** C7. Bulk loading registers the entries in order and stops at the first
    failure: when the entries before [file] load without failure and [file]
    has a name that is already registered or an invalid apply point, the
    load reports that entry's error to [next] whatever follows it (the
    entries after it are not looked at), and the registrations made before
    it are still in the registry: names, tables, flags and handlers. *)
Theorem bulk_load_stops_at_first_failure (dflt : Value) (before after : list File)
    (file : File) (st st1 : State) (name : string) :
  loadPolicies (mkOptions dflt before) st = Some (st1, None) ->
  match_js (filename file) = Some name ->
  name ∈ names (data st1) \/ hasValidApplyPoint (module file) = false ->
  exists st2 m,
    loadPolicies (mkOptions dflt (before ++ file :: after)) st = Some (st2, Some m)
    /\ loadPolicies (mkOptions dflt (before ++ [file])) st = Some (st2, Some m)
    /\ (m = Text ("Trying to add a duplicate policy: " ++ name) \/
        m = Concat "Trying to set incorrect applyPoint for the policy: "
                   (applyPoint (module file)))
    /\ names (data st1) `prefix_of` names (data st2)
    /\ buckets (data st2) = buckets (data st1)
    /\ setHandlers (data st2) = setHandlers (data st1)
    /\ exts (server st2) = exts (server st1).
Proof.
  rewrite !loadPolicies_eachSeries. simpl. intros Hbefore Hm Hfail.
  set (D := js_or dflt (VStr "onPreHandler")) in *.
  assert (Hcase : exists st2 m,
    addPolicy D file st1 = Some (st2, Some m)
    /\ (m = Text ("Trying to add a duplicate policy: " ++ name) \/
        m = Concat "Trying to set incorrect applyPoint for the policy: "
                   (applyPoint (module file)))
    /\ names (data st1) `prefix_of` names (data st2)
    /\ buckets (data st2) = buckets (data st1)
    /\ setHandlers (data st2) = setHandlers (data st1)
    /\ exts (server st2) = exts (server st1)).
  { destruct (decide (name ∈ names (data st1))) as [Hin|Hnin].
    - eexists _, _. split; [by apply addPolicy_duplicate|].
      split; [by left|]. by split_and!.
    - destruct Hfail as [Hin|Hinv]; [done|].
      eexists _, _. split; [by apply addPolicy_invalid|].
      split; [by right|]. simpl. split_and!; try done.
      by apply prefix_app_r. }
  destruct Hcase as (st2 & m & Hadd & Hrest). exists st2, m.
  split; [|split; [|exact Hrest]].
  - rewrite (eachSeries_app_ok _ _ _ _ _ Hbefore). by apply eachSeries_cons_failed.
  - rewrite (eachSeries_app_ok _ _ _ _ _ Hbefore). by apply eachSeries_cons_failed.
Qed.

(** Instance: [passes.js], then [misplaced.js] with an unknown apply point,
    then [third.js], which is never looked at. *)
Lemma bulk_load_stops_at_first_failure_witness :
  loadPolicies (mkOptions VUndefined [mkFile "passes.js" passes]) initial_state
    = Some (after_one_policy, None) /\
  match_js "misplaced.js" = Some "misplaced" /\
  exists st2 m,
    loadPolicies (mkOptions VUndefined
        ([mkFile "passes.js" passes] ++ mkFile "misplaced.js" misplaced
           :: [mkFile "third.js" third])) initial_state = Some (st2, Some m)
    /\ loadPolicies (mkOptions VUndefined
        ([mkFile "passes.js" passes] ++ [mkFile "misplaced.js" misplaced]))
        initial_state = Some (st2, Some m)
    /\ (m = Text ("Trying to add a duplicate policy: " ++ "misplaced") \/
        m = Concat "Trying to set incorrect applyPoint for the policy: "
                   (applyPoint misplaced))
    /\ names (data after_one_policy) `prefix_of` names (data st2)
    /\ buckets (data st2) = buckets (data after_one_policy)
    /\ setHandlers (data st2) = setHandlers (data after_one_policy)
    /\ exts (server st2) = exts (server after_one_policy).
Proof.
  split; [reflexivity|]. split; [reflexivity|].
  apply (bulk_load_stops_at_first_failure VUndefined [mkFile "passes.js" passes]
           [mkFile "third.js" third] (mkFile "misplaced.js" misplaced)
           initial_state after_one_policy "misplaced").
  - reflexivity.
  - reflexivity.
  - right. reflexivity.
Defined.

(** C8. A policy whose [applyPoint] is set to a falsy value (anything falsy
    but [undefined], which is what an absent attribute reads as) is
    registered by name only: the name is appended to [data.names], no stage
    table and no flag changes, the host is not touched ([server.ext] is not
    called), and nothing is reported to [next]. The name then takes part in
    duplicate detection (a second file of that name is rejected) and in the
    handlers' lookup (a route naming it is not answered with a missing
    policy). *)
Theorem falsy_apply_point_reserves_name (dflt : Value) (file : File) (st : State)
    (name : string) :
  match_js (filename file) = Some name ->
  name ∉ names (data st) ->
  truthy (applyPoint (module file)) = false ->
  applyPoint (module file) <> VUndefined ->
  exists st',
    addPolicy (js_or dflt (VStr "onPreHandler")) file st = Some (st', None)
    /\ loadPolicies (mkOptions dflt [file]) st = Some (st', None)
    /\ names (data st') = (names (data st) ++ [name])%list
    /\ buckets (data st') = buckets (data st)
    /\ setHandlers (data st') = setHandlers (data st)
    /\ server st' = server st
    /\ (forall file2, match_js (filename file2) = Some name ->
          exists st2 m, addPolicy (js_or dflt (VStr "onPreHandler")) file2 st'
                        = Some (st2, Some m) /\ data st2 = data st')
    /\ (forall stage dflt2 acc,
          repliedWithError
            (reduce_step stage (data st') dflt2 acc (DVal (VStr name)))
          = repliedWithError acc).
Proof.
  intros Hm Hnin Hfalsy Hdef.
  exists {| data := push_name name (data st); server := server st |}.
  assert (Hadd := addPolicy_disabled (js_or dflt (VStr "onPreHandler")) file st name
                    Hm Hnin Hfalsy Hdef).
  assert (Hin : name ∈ names (push_name name (data st))).
  { simpl. apply elem_of_app. right. by apply list_elem_of_singleton. }
  split_and!; try done.
  - rewrite loadPolicies_eachSeries. simpl. by rewrite Hadd.
  - intros file2 Hm2. eexists _, _. split; [by apply addPolicy_duplicate|done].
  - intros stage dflt2 acc. unfold reduce_step. cbn [data].
    destruct (repliedWithError acc) eqn:E; [done|].
    rewrite (indexOf_present _ _ Hin).
    by destruct (bucket _ stage !! name).
Qed.

(** Instance: [disabled.js], whose [applyPoint] is [false]. *)
Lemma falsy_apply_point_reserves_name_witness :
  exists st',
    addPolicy (js_or VUndefined (VStr "onPreHandler")) (mkFile "disabled.js" disabled)
              after_one_policy = Some (st', None)
    /\ loadPolicies (mkOptions VUndefined [mkFile "disabled.js" disabled]) after_one_policy
       = Some (st', None)
    /\ names (data st') = (names (data after_one_policy) ++ ["disabled"])%list
    /\ buckets (data st') = buckets (data after_one_policy)
    /\ setHandlers (data st') = setHandlers (data after_one_policy)
    /\ server st' = server after_one_policy
    /\ (forall file2, match_js (filename file2) = Some "disabled" ->
          exists st2 m, addPolicy (js_or VUndefined (VStr "onPreHandler")) file2 st'
                        = Some (st2, Some m) /\ data st2 = data st')
    /\ (forall stage dflt2 acc,
          repliedWithError
            (reduce_step stage (data st') dflt2 acc (DVal (VStr "disabled")))
          = repliedWithError acc).
Proof.
  apply (falsy_apply_point_reserves_name VUndefined (mkFile "disabled.js" disabled)
           after_one_policy "disabled").
  - reflexivity.
  - decided.
  - reflexivity.
  - discriminate.
Defined.

Lemma eachSeries_skip {A S : Type} (iterator : A -> S -> option (S * Failure))
    (x : A) (before after : list A) (st : S) :
  (forall s, iterator x s = Some (s, None)) ->
  eachSeries iterator (before ++ x :: after) st = eachSeries iterator (before ++ after) st.
Proof.
  intros Hx. revert st. induction before as [|y before IH]; intros st; simpl.
  - by rewrite Hx.
  - destruct (iterator y st) as [[st' [m|]]|]; try done.
Qed.

(** C10. A directory entry whose name does not end in [.js] is passed over:
    [addPolicy] returns the state it was given (no name, no table entry, no
    flag, no handler, no log entry) and reports no error, and a load gives
    the same result as if the entry were not in the directory, wherever it
    stands. *)
Theorem non_js_file_skipped (dflt : Value) (before after : list File) (file : File)
    (st : State) :
  ~ ends_in_js (filename file) ->
  addPolicy (js_or dflt (VStr "onPreHandler")) file st = Some (st, None)
  /\ loadPolicies (mkOptions dflt (before ++ file :: after)) st
     = loadPolicies (mkOptions dflt (before ++ after)) st.
Proof.
  intros Hjs. apply match_js_not_js in Hjs. split; [by apply addPolicy_skip|].
  rewrite !loadPolicies_eachSeries. simpl. apply eachSeries_skip.
  intros s. by apply addPolicy_skip.
Qed.

(** Instance: a [README.md] between two policy files. *)
Lemma non_js_file_skipped_witness :
  ~ ends_in_js "README.md" /\
  addPolicy (js_or VUndefined (VStr "onPreHandler")) (mkFile "README.md" passes)
            initial_state = Some (initial_state, None)
  /\ loadPolicies (mkOptions VUndefined
        ([mkFile "passes.js" passes] ++ mkFile "README.md" passes
           :: [mkFile "third.js" third])) initial_state
     = loadPolicies (mkOptions VUndefined
        ([mkFile "passes.js" passes] ++ [mkFile "third.js" third])) initial_state.
Proof.
  assert (Hjs : ~ ends_in_js (filename (mkFile "README.md" passes))).
  { decided. }
  split; [exact Hjs|].
  exact (non_js_file_skipped VUndefined [mkFile "passes.js" passes]
           [mkFile "third.js" third] (mkFile "README.md" passes) initial_state Hjs).
Defined.

(** C4 (as stated). After a load followed by a [reset] the host still has
    the handler of the stage, and no policy is registered for it: the
    handler being installed does not imply that a policy targets the
    stage. *)
Lemma dispatcher_survives_reset :
  ~ (forall (ops : list Op) (st : State) (V : string),
       history ops initial_state = Some st ->
       (dispatcher_installed st V <-> targeted (data st) V)).
Proof.
  intros H.
  assert (E : history [Load one_policy_dir; Reset] initial_state
              = Some (reset after_one_policy)) by reflexivity.
  apply (H _ _ "onPreHandler") in E as [E _].
  apply (initial_not_targeted "onPreHandler"). apply E.
  unfold dispatcher_installed. decided.
Qed.

(** Loading the same directory again after a [reset] hands the stage's
    handler to the host a second time. *)
Lemma load_reset_load_installs_twice :
  exists st, history [Load one_policy_dir; Reset; Load one_policy_dir] initial_state
             = Some st
    /\ exts (server st) = ["onPreHandler"; "onPreHandler"].
Proof. eexists. split; reflexivity. Qed.

(** C4 (amended). In every state the module can reach, for every stage [V]:
    the flag [data.setHandlers[V]] is set if and only if some policy is
    registered for [V]; a stage with a registered policy has its handler
    installed at the host; as long as [reset] has not been called the
    converse holds too, and each stage was handed to [server.ext] at most
    once; and registering one more policy when [V] already has one does not
    call [server.ext] for [V] again. *)
Theorem dispatcher_flag_iff_targeted (ops : list Op) (st : State) (V : string) :
  history ops initial_state = Some st ->
  (flag_set (data st) V <-> targeted (data st) V)
  /\ (targeted (data st) V -> dispatcher_installed st V)
  /\ (Reset ∉ ops ->
        (dispatcher_installed st V <-> targeted (data st) V)
        /\ NoDup (exts (server st)))
  /\ (targeted (data st) V ->
      forall dflt file st' f,
        addPolicy dflt file st = Some (st', f) ->
        exts (server st') = exts (server st)
        \/ exists W, W <> V /\ exts (server st') = (exts (server st) ++ [W])%list).
Proof.
  intros Hhist.
  destruct (history_consistent _ _ _ initial_consistent Hhist) as [Hiff Hinst].
  split_and!.
  - apply Hiff.
  - intros Ht. by apply Hinst, Hiff.
  - intros Hr.
    destruct (history_exact _ _ _ Hr initial_exact Hhist) as [Hflag Hnodup].
    split; [|done]. split.
    + intros Hi. by apply Hiff, Hflag.
    + intros Ht. by apply Hinst, Hiff.
  - intros Ht dflt file st' f Hadd.
    apply addPolicy_effect in Hadd as [(_ & _ & He)|Hadd]; [by left|].
    destruct Hadd as (ap & name & _ & _ & _ & _ & _ & _ & He).
    destruct (handler_unset (data st) ap) eqn:Hu; [|by left].
    right. exists ap. split; [|done]. intros ->.
    apply Hiff in Ht. apply (proj2 (handler_unset_false _ _)) in Ht. congruence.
Qed.

(** Instance: the pre-handler stage after loading [passes.js]. *)
Lemma dispatcher_flag_iff_targeted_witness :
  history [Load one_policy_dir] initial_state = Some after_one_policy /\
  (flag_set (data after_one_policy) "onPreHandler"
     <-> targeted (data after_one_policy) "onPreHandler")
  /\ (targeted (data after_one_policy) "onPreHandler"
      -> dispatcher_installed after_one_policy "onPreHandler")
  /\ (Reset ∉ [Load one_policy_dir] ->
        (dispatcher_installed after_one_policy "onPreHandler"
           <-> targeted (data after_one_policy) "onPreHandler")
        /\ NoDup (exts (server after_one_policy)))
  /\ (targeted (data after_one_policy) "onPreHandler" ->
      forall dflt file st' f,
        addPolicy dflt file after_one_policy = Some (st', f) ->
        exts (server st') = exts (server after_one_policy)
        \/ exists W, W <> "onPreHandler"
             /\ exts (server st') = (exts (server after_one_policy) ++ [W])%list).
Proof.
  split; [reflexivity|].
  apply (dispatcher_flag_iff_targeted [Load one_policy_dir] after_one_policy
           "onPreHandler").
  reflexivity.
Defined.

(** ** The executor *)

Lemma run_app (x : Exec) (events later : list Event) :
  run x (events ++ later) = run (run x events) later.
Proof. apply foldl_app. Qed.

Lemma run_snoc (x : Exec) (events : list Event) (e : Event) :
  run x (events ++ [e]) = step (run x events) e.
Proof. by rewrite run_app. Qed.

Lemma runPolicies_start (policies : list Policy) (r : Reply) (policy : Policy) :
  policies !! 0%nat = Some policy ->
  runPolicies policies r = mkExec policies 0 true r [policy].
Proof.
  intros H. destruct policies as [|p ps]; [discriminate|].
  simpl in H. injection H as ->. reflexivity.
Qed.

(** While the policies signal continue, one more policy is called after each
    signal and the reply interface is not touched. *)
Lemma run_continues (policies : list Policy) (r : Reply) (signals : list Event) :
  (length signals < length policies)%nat ->
  Forall (fun e => is_continue e = true) signals ->
  run (runPolicies policies r) signals
  = mkExec policies (length signals) true r (take (S (length signals)) policies).
Proof.
  induction signals as [|e signals IH] using rev_ind; intros Hlen Hall.
  - simpl. destruct policies as [|p ps]; [simpl in Hlen; lia|].
    simpl. by rewrite take_0.
  - rewrite length_app in Hlen. simpl in Hlen.
    apply Forall_app in Hall as [Hall He]. rewrite Forall_singleton in He.
    rewrite run_snoc, IH by (done || lia). rewrite length_app. simpl.
    destruct e as [err canContinue message|]; [|discriminate].
    simpl in He. apply andb_true_iff in He as [Herr Hcan].
    apply negb_true_iff in Herr.
    destruct (lookup_lt_is_Some_2 policies (S (length signals)) ltac:(lia))
      as [policy Hp].
    unfold step. cbn [invoked].
    destruct (take (S (length signals)) policies) as [|p0 l0] eqn:Htake.
    { destruct policies; [simpl in Hlen; lia|simpl in Htake; discriminate]. }
    rewrite <- Htake. unfold checkPolicy. rewrite Herr, Hcan.
    unfold next. cbn [policiesToRun completed callback_live reply invoked].
    destruct (Nat.leb_spec (length policies) (S (length signals))); [lia|].
    unfold iterate. cbn [policiesToRun completed callback_live reply invoked].
    rewrite Hp. replace (length signals + 1)%nat with (S (length signals)) by lia.
    by rewrite (take_S_r _ _ _ Hp).
Qed.









Lemma run_fails (policies : list Policy) (r : Reply) (signals : list Event)
    (err canContinue message : Value) (e : Response) :
  (length signals < length policies)%nat ->
  Forall (fun e => is_continue e = true) signals ->
  checkPolicy err canContinue message = Some e ->
  run (runPolicies policies r) (signals ++ [Signal err canContinue message])
  = mkExec policies (length signals) false (final_callback (Some e) r)
           (take (S (length signals)) policies).
Proof.
  intros Hlen Hall Hcheck. rewrite run_snoc, run_continues by done.
  unfold step. cbn [invoked].
  destruct (take (S (length signals)) policies) as [|p0 l0] eqn:Htake.
  { destruct policies; [simpl in Hlen; lia|simpl in Htake; discriminate]. }
  by rewrite Hcheck.
Qed.

Lemma checkPolicy_denial (err canContinue message : Value) :
  truthy err = false -> truthy canContinue = false ->
  checkPolicy err canContinue message = Some (Forbidden message).
Proof. intros H1 H2. unfold checkPolicy. by rewrite H1, H2. Qed.




(** C9. A completion signal with a falsy error and a falsy [canContinue]
    (with no argument at all, all three are [undefined]) is passed on as
    [Boom.forbidden(message)]: the run that receives it from the policy in
    flight, after any number of policies that let the request pass, replies
    with that forbidden error, [message] being whatever the policy gave,
    possibly [undefined]. *)
Theorem falsy_canContinue_is_denial (policies : list Policy) (r : Reply)
    (signals : list Event) (err canContinue message : Value) :
  truthy err = false ->
  truthy canContinue = false ->
  (length signals < length policies)%nat ->
  Forall (fun e => is_continue e = true) signals ->
  _replied r = false ->
  checkPolicy err canContinue message = Some (Forbidden message)
  /\ reply (run (runPolicies policies r)
                (signals ++ [Signal err canContinue message]))
     = reply_with (Forbidden message) r.
Proof.
  intros Herr Hcan Hlen Hall Hr.
  pose proof (checkPolicy_denial err canContinue message Herr Hcan) as Hcheck.
  split; [done|]. rewrite (run_fails _ _ _ _ _ _ _ Hlen Hall Hcheck).
  cbn [reply]. unfold final_callback. by rewrite Hr.
Qed.

(** Instance: the second of two policies calls its callback with no
    argument. *)
Lemma falsy_canContinue_is_denial_witness :
  checkPolicy VUndefined VUndefined VUndefined = Some (Forbidden VUndefined)
  /\ reply (run (runPolicies [passes; denies] fresh_reply)
                ([Signal VNull (VBool true) VUndefined]
                   ++ [Signal VUndefined VUndefined VUndefined]))
     = reply_with (Forbidden VUndefined) fresh_reply.
Proof.
  apply (falsy_canContinue_is_denial [passes; denies] fresh_reply
           [Signal VNull (VBool true) VUndefined] VUndefined VUndefined VUndefined).
  - reflexivity.
  - reflexivity.
  - simpl. lia.
  - repeat constructor.
  - reflexivity.
Defined.

(** ** Resolution *)

Lemma resolve_after_error (stage : string) (d : Data) (dflt : Value)
    (ds : list Directive) (acc : Reduce) :
  repliedWithError acc = true ->
  foldl (reduce_step stage d dflt) acc ds = acc.
Proof.
  intros H. induction ds as [|directive ds IH]; [done|].
  simpl. unfold reduce_step at 2. by rewrite H.
Qed.

Lemma reduce_step_target (stage : string) (d : Data) (dflt : Value)
    (directive : Directive) (policy : Policy) (acc : Reduce) :
  repliedWithError acc = false ->
  target_policy stage d dflt directive = Some policy ->
  reduce_step stage d dflt acc directive = push policy acc.
Proof.
  intros Hacc Ht. unfold reduce_step. rewrite Hacc.
  destruct directive as [v|p]; simpl in Ht.
  - destruct v as [| | | |name|]; try discriminate.
    case_bool_decide as Hin; [|discriminate].
    by rewrite (indexOf_present _ _ Hin), Ht.
  - destruct (hasValidApplyPoint p) eqn:Hv; [|discriminate]. simpl in *.
    case_bool_decide as Heq; [|discriminate]. by injection Ht as ->.
Qed.

Lemma resolve_targets (stage : string) (d : Data) (dflt : Value)
    (ds : list Directive) (ps : list Policy) (acc : Reduce) :
  repliedWithError acc = false ->
  Forall2 (fun directive policy => target_policy stage d dflt directive = Some policy)
          ds ps ->
  foldl (reduce_step stage d dflt) acc ds
  = mkReduce false (tmpList acc ++ ps) (reduce_reply acc).
Proof.
  intros Hacc Hall. revert acc Hacc.
  induction Hall as [|directive policy ds ps Ht Hall IH]; intros acc Hacc; simpl.
  - rewrite app_nil_r. destruct acc; simpl in *. by subst.
  - rewrite (reduce_step_target _ _ _ _ _ _ Hacc Ht), IH by done.
    simpl. by rewrite <- app_assoc.
Qed.

Lemma handler_targets (stage : string) (d : Data) (dflt : Value)
    (ds : list Directive) (ps : list Policy) (r : Reply) :
  Forall2 (fun directive policy => target_policy stage d dflt directive = Some policy)
          ds ps ->
  handler stage d dflt (Some ds) r = runPolicies ps r.
Proof.
  intros Hall. unfold handler. by rewrite (resolve_targets _ _ _ _ ps).
Qed.

(** One step of the reduction either leaves the reply interface alone or
    replies with an error and raises the flag. *)
Lemma reduce_step_cases (stage : string) (d : Data) (dflt : Value)
    (directive : Directive) (acc : Reduce) :
  repliedWithError acc = false ->
  (repliedWithError (reduce_step stage d dflt acc directive) = false
   /\ reduce_reply (reduce_step stage d dflt acc directive) = reduce_reply acc)
  \/ (exists e, reduce_step stage d dflt acc directive = fail_with e acc).
Proof.
  intros Hacc. unfold reduce_step. rewrite Hacc.
  destruct directive as [v|p].
  - destruct v as [| | | |name|]; try (right; eauto; fail).
    destruct (indexOf (names d) name =? -1)%Z; [right; eauto|].
    left. by destruct (bucket d stage !! name).
  - destruct (negb (hasValidApplyPoint p)); [right; eauto|].
    left. by case_bool_decide.
Qed.

Lemma reduce_step_resolvable (stage : string) (d : Data) (dflt : Value)
    (directive : Directive) (acc : Reduce) :
  repliedWithError acc = false ->
  resolvable d directive = true ->
  repliedWithError (reduce_step stage d dflt acc directive) = false
  /\ reduce_reply (reduce_step stage d dflt acc directive) = reduce_reply acc.
Proof.
  intros Hacc Hres. unfold reduce_step. rewrite Hacc.
  destruct directive as [v|p]; simpl in Hres.
  - destruct v as [| | | |name|]; try discriminate.
    apply bool_decide_eq_true_1 in Hres. rewrite (indexOf_present _ _ Hres).
    by destruct (bucket d stage !! name).
  - rewrite Hres. simpl. by case_bool_decide.
Qed.

Lemma reduce_step_missing (stage : string) (d : Data) (dflt : Value)
    (name : string) (acc : Reduce) :
  repliedWithError acc = false ->
  name ∉ names d ->
  reduce_step stage d dflt acc (DVal (VStr name))
  = fail_with (NotImplemented (Text ("Missing policy: " ++ name))) acc.
Proof.
  intros Hacc Hnin. unfold reduce_step. by rewrite Hacc, (indexOf_absent _ _ Hnin).
Qed.

Lemma resolve_missing (stage : string) (d : Data) (dflt : Value)
    (before after : list Directive) (name : string) (acc : Reduce) :
  repliedWithError acc = false ->
  name ∉ names d ->
  exists e,
    repliedWithError
      (foldl (reduce_step stage d dflt) acc (before ++ DVal (VStr name) :: after)) = true
    /\ reduce_reply
         (foldl (reduce_step stage d dflt) acc (before ++ DVal (VStr name) :: after))
       = reply_with e (reduce_reply acc)
    /\ (forallb (resolvable d) before = true ->
        e = NotImplemented (Text ("Missing policy: " ++ name))).
Proof.
  intros Hacc Hnin. revert acc Hacc.
  induction before as [|directive before IH]; intros acc Hacc; simpl.
  - rewrite (reduce_step_missing _ _ _ _ _ Hacc Hnin).
    rewrite resolve_after_error by done. eauto.
  - destruct (reduce_step_cases stage d dflt directive acc Hacc) as [[H1 H2]|[e He]].
    + destruct (IH _ H1) as (e & Hflag & Hreply & Hwhich).
      exists e. rewrite Hflag, Hreply, H2. split_and!; [done|done|].
      intros Hb. apply andb_true_iff in Hb as [_ Hb]. by apply Hwhich.
    + rewrite He, resolve_after_error by done. exists e. split_and!; [done|done|].
      intros Hb. apply andb_true_iff in Hb as [Hb _].
      destruct (reduce_step_resolvable stage d dflt directive acc Hacc Hb) as [Hc _].
      rewrite He in Hc. discriminate.
Qed.

Lemma run_invoked_nil (x : Exec) (events : list Event) :
  invoked x = [] -> invoked (run x events) = [].
Proof.
  revert x. induction events as [|e events IH]; intros x H; [done|].
  simpl. apply IH. destruct e; simpl; [by rewrite H|done].
Qed.

(** ** Requests: the claims *)

(** C1. When every entry of a route's policy list targets the stage being
    handled, the handler runs the policies of the list in declared order,
    one at a time: after [j] policies have signalled continue exactly the
    first [j+1] have been called and nothing has been sent; when the policy
    in flight then fails (an error, or a denial: no error and a falsy
    [canContinue]), no further policy is called and the request is answered
    with that failure, which for a denial is the forbidden error carrying the
    policy's message. With three policies and a denial by the second: the
    first has continued, the third is never called. *)
Theorem policies_run_in_order_until_first_failure
    (stage : string) (d : Data) (dflt : Value) (ds : list Directive)
    (ps : list Policy) (r : Reply) (signals : list Event)
    (err canContinue message : Value) (e : Response) :
  Forall2 (fun directive policy => target_policy stage d dflt directive = Some policy)
          ds ps ->
  (length signals < length ps)%nat ->
  Forall (fun e => is_continue e = true) signals ->
  checkPolicy err canContinue message = Some e ->
  _replied r = false ->
  let x := handler stage d dflt (Some ds) r in
  (forall j, (j <= length signals)%nat ->
     invoked (run x (take j signals)) = take (S j) ps
     /\ reply (run x (take j signals)) = r)
  /\ invoked (run x (signals ++ [Signal err canContinue message]))
     = take (S (length signals)) ps
  /\ reply (run x (signals ++ [Signal err canContinue message])) = reply_with e r
  /\ (truthy err = false -> e = Forbidden message).
Proof.
  intros Htargets Hlen Hall Hcheck Hr x. subst x.
  rewrite (handler_targets _ _ _ _ _ _ Htargets). split_and!.
  - intros j Hj.
    assert (Hlenj : length (take j signals) = j) by (rewrite length_take; lia).
    rewrite run_continues.
    + by rewrite Hlenj.
    + lia.
    + by apply Forall_take.
  - by rewrite (run_fails _ _ _ _ _ _ _ Hlen Hall Hcheck).
  - rewrite (run_fails _ _ _ _ _ _ _ Hlen Hall Hcheck). cbn [reply].
    unfold final_callback. by rewrite Hr.
  - intros Herr. unfold checkPolicy in Hcheck. rewrite Herr in Hcheck.
    destruct (truthy canContinue); congruence.
Qed.

(** Instance: a stored policy and two inline ones at the pre-handler stage;
    the second denies with the message [nope]. *)
Lemma policies_run_in_order_until_first_failure_witness :
  let x := handler "onPreHandler" (data after_one_policy) (VStr "onPreHandler")
             (Some [DVal (VStr "passes"); DFun inline_denies; DFun third])
             fresh_reply in
  (forall j, (j <= 1)%nat ->
     invoked (run x (take j [Signal VNull (VBool true) VUndefined]))
       = take (S j) [passes; inline_denies; third]
     /\ reply (run x (take j [Signal VNull (VBool true) VUndefined])) = fresh_reply)
  /\ invoked (run x ([Signal VNull (VBool true) VUndefined]
                       ++ [Signal VNull (VBool false) (VStr "nope")]))
     = [passes; inline_denies]
  /\ reply (run x ([Signal VNull (VBool true) VUndefined]
                     ++ [Signal VNull (VBool false) (VStr "nope")]))
     = reply_with (Forbidden (VStr "nope")) fresh_reply
  /\ (truthy VNull = false -> Forbidden (VStr "nope") = Forbidden (VStr "nope")).
Proof.
  apply (policies_run_in_order_until_first_failure "onPreHandler"
           (data after_one_policy) (VStr "onPreHandler")
           [DVal (VStr "passes"); DFun inline_denies; DFun third]
           [passes; inline_denies; third] fresh_reply
           [Signal VNull (VBool true) VUndefined]
           VNull (VBool false) (VStr "nope") (Forbidden (VStr "nope"))).
  - repeat constructor.
  - simpl. lia.
  - repeat constructor.
  - reflexivity.
  - reflexivity.
Defined.

(** C5 (as stated). A route list that names an unregistered policy after an
    inline function with an invalid apply point is not answered with the
    missing-policy error: the earlier entry's error is the reply. *)
Lemma missing_policy_not_always_reported :
  ~ (forall (stage : string) (d : Data) (dflt : Value) (ds : list Directive)
            (name : string) (r : Reply),
       DVal (VStr name) ∈ ds ->
       name ∉ names d ->
       reply (handler stage d dflt (Some ds) r)
       = reply_with (NotImplemented (Text ("Missing policy: " ++ name))) r).
Proof.
  intros H.
  specialize (H "onPreHandler" initial_data (VStr "onPreHandler")
                [DFun misplaced; DVal (VStr "ghost")] "ghost" fresh_reply).
  assert (Hin : DVal (VStr "ghost") ∈ [DFun misplaced; DVal (VStr "ghost")]).
  { apply elem_of_cons. right. apply elem_of_cons. by left. }
  assert (Hnin : "ghost" ∉ names initial_data) by (intros Hx; inversion Hx).
  specialize (H Hin Hnin). discriminate H.
Qed.

(** C5 (amended). When a route's list names a policy that is not in
    [data.names], the handler of any stage replies with an error, once, and
    runs nothing: no policy of the list is called, whatever happens later.
    The error is the missing-policy (not implemented) error naming that
    policy when every entry before it is a registered name or a function with
    a valid apply point; otherwise it is the error of an earlier entry. *)
Theorem missing_policy_fails_resolution (stage : string) (d : Data) (dflt : Value)
    (before after : list Directive) (name : string) (r : Reply)
    (events : list Event) :
  name ∉ names d ->
  let x := handler stage d dflt (Some (before ++ DVal (VStr name) :: after)%list) r in
  (exists e, x = idle (reply_with e r))
  /\ invoked (run x events) = []
  /\ (forallb (resolvable d) before = true ->
      x = idle (reply_with (NotImplemented (Text ("Missing policy: " ++ name))) r)).
Proof.
  intros Hnin x. subst x. unfold handler.
  destruct (resolve_missing stage d dflt before after name (mkReduce false [] r)
              eq_refl Hnin) as (e & Hflag & Hreply & Hwhich).
  rewrite Hflag, Hreply. cbn [reduce_reply]. split_and!.
  - by exists e.
  - by apply run_invoked_nil.
  - intros Hb. by rewrite (Hwhich Hb).
Qed.

(** Instance: the route [passes], [ghost], then an inline function. *)
Lemma missing_policy_fails_resolution_witness :
  ("ghost" ∉ names (data after_one_policy)) /\
  (let x := handler "onPreHandler" (data after_one_policy) (VStr "onPreHandler")
              (Some ([DVal (VStr "passes")] ++ DVal (VStr "ghost") :: [DFun third])%list)
              fresh_reply in
   (exists e, x = idle (reply_with e fresh_reply))
   /\ invoked (run x [Signal VNull (VBool true) VUndefined]) = []
   /\ (forallb (resolvable (data after_one_policy)) [DVal (VStr "passes")] = true ->
       x = idle (reply_with (NotImplemented (Text ("Missing policy: " ++ "ghost")))
                            fresh_reply))).
Proof.
  assert (Hnin : "ghost" ∉ names (data after_one_policy)).
  { decided. }
  split; [exact Hnin|].
  exact (missing_policy_fails_resolution "onPreHandler" (data after_one_policy)
           (VStr "onPreHandler") [DVal (VStr "passes")] [DFun third] "ghost"
           fresh_reply [Signal VNull (VBool true) VUndefined] Hnin).
Defined.

Lemma call_callback_fields (err : option Response) (x : Exec) :
  policiesToRun (call_callback err x) = policiesToRun x
  /\ invoked (call_callback err x) = invoked x.
Proof. unfold call_callback. by destruct (callback_live x). Qed.

(** A run over a single policy never calls anything else. *)
Lemma run_single_invoked (x : Exec) (policy : Policy) (events : list Event) :
  policiesToRun x = [policy] ->
  invoked x = [policy] ->
  invoked (run x events) = [policy].
Proof.
  revert x. induction events as [|e events IH]; intros x Hp Hi; [done|].
  simpl. fold (run (step x e) events).
  assert (H : policiesToRun (step x e) = [policy] /\ invoked (step x e) = [policy]).
  { destruct e as [err canContinue message|]; [|done].
    simpl. rewrite Hi. unfold next.
    destruct (checkPolicy err canContinue message) as [f|].
    - cbn [policiesToRun invoked].
      destruct (call_callback_fields (Some f) x) as [-> ->]. done.
    - cbn [policiesToRun completed]. rewrite Hp. simpl.
      destruct (call_callback_fields None
                  (mkExec (policiesToRun x) (S (completed x)) (callback_live x)
                          (reply x) (invoked x))) as [H1 H2].
      rewrite Hp in *. by rewrite H1, H2. }
  destruct H. by apply IH.
Qed.

(** C3 (as stated). With no stored policy registered, no handler of the
    module is installed at the post-authentication stage, and an inline
    policy without an [applyPoint] is not run there although the default
    apply point is that stage. *)
Lemma inline_policy_needs_installed_dispatcher :
  ~ (forall (ops : list Op) (st : State) (policy : Policy) (r : Reply),
       history ops initial_state = Some st ->
       applyPoint policy = VUndefined ->
       exists x,
         stage_entry st "onPostAuth" (VStr "onPostAuth") (Some [DFun policy]) r = Some x
         /\ policy ∈ invoked x).
Proof.
  intros H.
  destruct (H [] initial_state passes fresh_reply eq_refl eq_refl) as (x & Hx & _).
  discriminate Hx.
Qed.

(** C3 (amended). An inline policy without an [applyPoint], alone on a
    route, with the default apply point set to the post-authentication stage:
    at every stage where the host has a handler of this module, the handler
    calls the policy if the stage is the post-authentication stage and calls
    nothing otherwise, whatever signals follow; at a stage without an
    installed handler (no stored policy was ever registered there) nothing of
    the module runs, the post-authentication stage included. *)
Theorem inline_policy_runs_at_default_stage_only (st : State) (policy : Policy)
    (stage : string) (r : Reply) (events : list Event) :
  applyPoint policy = VUndefined ->
  stage ∈ _applyPoints ->
  let entry := stage_entry st stage (VStr "onPostAuth") (Some [DFun policy]) r in
  (dispatcher_installed st stage ->
     exists x, entry = Some x
       /\ invoked (run x events)
          = if bool_decide (stage = "onPostAuth") then [policy] else [])
  /\ (~ dispatcher_installed st stage -> entry = None).
Proof.
  intros Hap Hstage entry. subst entry. unfold stage_entry, dispatcher_installed.
  split.
  - intros Hinst. rewrite bool_decide_eq_true_2 by done.
    unfold handlers. rewrite (indexOf_present _ _ Hstage).
    eexists. split; [done|].
    unfold handler. simpl. unfold reduce_step. simpl.
    unfold hasValidApplyPoint, js_or. rewrite Hap. simpl.
    case_bool_decide as Heq.
    + injection Heq as <-. rewrite bool_decide_eq_true_2 by done.
      by apply run_single_invoked.
    + rewrite bool_decide_eq_false_2 by congruence.
      by apply run_invoked_nil.
  - intros Hinst. by rewrite bool_decide_eq_false_2.
Qed.

(** Instance: a stored policy registered at the post-authentication stage
    has installed the handler there; the inline policy runs. *)
Lemma inline_policy_runs_at_default_stage_only_witness :
  loadPolicies (mkOptions (VStr "onPostAuth") [mkFile "post_auth.js" post_auth])
               initial_state = Some (after_post_auth_policy, None) /\
  applyPoint passes = VUndefined /\
  "onPostAuth" ∈ _applyPoints /\
  exists x,
    stage_entry after_post_auth_policy "onPostAuth" (VStr "onPostAuth")
                (Some [DFun passes]) fresh_reply = Some x
    /\ invoked (run x [Signal VNull (VBool true) VUndefined]) = [passes].
Proof.
  assert (Hstage : "onPostAuth" ∈ _applyPoints).
  { decided. }
  split; [reflexivity|]. split; [reflexivity|]. split; [exact Hstage|].
  destruct (inline_policy_runs_at_default_stage_only after_post_auth_policy passes
              "onPostAuth" fresh_reply [Signal VNull (VBool true) VUndefined]
              eq_refl Hstage) as [Hrun _].
  apply Hrun. unfold dispatcher_installed.
  decided.
Defined.

(** * Further properties of the module *)

(** ** What one registration does to the registry *)

Lemma bucket_set_policy (ap V name : string) (policy : Policy) (d : Data) :
  bucket (set_policy ap name policy d) V
  = if decide (V = ap) then <[name := policy]> (bucket d ap) else bucket d V.
Proof.
  case_decide as H.
  - subst. apply bucket_set_policy_eq.
  - by apply bucket_set_policy_ne.
Qed.

(** The three ways a call of [addPolicy] can return: the registry is left
    alone (no match, or a duplicate); only the name is recorded (a disabled
    policy, or one rejected for its apply point); or the policy is entered
    in the table of its stage. *)
Lemma addPolicy_registry (dflt : Value) (file : File) (st st' : State) (f : Failure) :
  addPolicy dflt file st = Some (st', f) ->
  (data st' = data st /\ exts (server st') = exts (server st)
   /\ ((f = None /\ match_js (filename file) = None /\ st' = st)
       \/ exists name, match_js (filename file) = Some name
            /\ name ∈ names (data st)
            /\ f = Some (Text ("Trying to add a duplicate policy: " ++ name))))
  \/ (exists name,
        match_js (filename file) = Some name /\ (name ∉ names (data st))
        /\ data st' = push_name name (data st)
        /\ exts (server st') = exts (server st)
        /\ ((f = None /\ truthy (applyPoint (module file)) = false
             /\ applyPoint (module file) <> VUndefined /\ server st' = server st)
            \/ (f = Some (Concat "Trying to set incorrect applyPoint for the policy: "
                                 (applyPoint (module file)))
                /\ hasValidApplyPoint (module file) = false)))
  \/ (exists name ap,
        f = None /\ match_js (filename file) = Some name /\ (name ∉ names (data st))
        /\ ap ∈ _applyPoints
        /\ js_or (applyPoint (module file)) dflt = VStr ap
        /\ (applyPoint (module file) = VStr ap \/ applyPoint (module file) = VUndefined)
        /\ names (data st') = (names (data st) ++ [name])%list
        /\ (forall V, bucket (data st') V
                      = if decide (V = ap)
                        then <[name := module file]> (bucket (data st) ap)
                        else bucket (data st) V)
        /\ (forall V, flag_set (data st') V <-> V = ap \/ flag_set (data st) V)
        /\ exts (server st')
           = if handler_unset (data st) ap then (exts (server st) ++ [ap])%list
             else exts (server st)).
Proof.
  unfold addPolicy. destruct (match_js (filename file)) as [name|] eqn:Hm.
  2:{ intros [= <- <-]. left. split_and!; try done. by left. }
  destruct (indexOf (names (data st)) name =? -1)%Z eqn:Hdup; simpl.
  2:{ intros [= <- <-]. left. apply indexOf_elem_of in Hdup.
      split_and!; try done. right. by exists name. }
  assert (Hnin : name ∉ names (data st)).
  { intros Hin. apply indexOf_present in Hin. congruence. }
  destruct (hasValidApplyPoint (module file)) eqn:Hvalid; simpl.
  2:{ intros [= <- <-]. right. left. exists name. split_and!; try done. by right. }
  destruct (bool_decide (applyPoint (module file) = VUndefined)
            || truthy (applyPoint (module file))) eqn:Hon.
  2:{ intros [= <- <-]. right. left. exists name.
      apply orb_false_iff in Hon as [Hu Ht]. apply bool_decide_eq_false_1 in Hu.
      split_and!; try done. by left. }
  destruct (js_or _ _) as [| | | |ap|] eqn:Hap; try discriminate.
  destruct (negb (indexOf _applyPoints ap =? -1)%Z) eqn:Hstage; [|discriminate].
  apply negb_true_iff, indexOf_elem_of in Hstage.
  assert (Hattr : applyPoint (module file) = VStr ap
                  \/ applyPoint (module file) = VUndefined).
  { unfold js_or in Hap. destruct (truthy (applyPoint (module file))) eqn:Ht.
    - by left.
    - right. rewrite orb_false_r in Hon. by apply bool_decide_eq_true_1 in Hon. }
  set (d2 := set_policy ap name (module file) (push_name name (data st))).
  assert (Hunset : handler_unset d2 ap = handler_unset (data st) ap) by done.
  assert (Hbucket : forall V, bucket d2 V
                    = if decide (V = ap)
                      then <[name := module file]> (bucket (data st) ap)
                      else bucket (data st) V).
  { intros V. unfold d2. by rewrite bucket_set_policy. }
  rewrite Hunset. destruct (handler_unset (data st) ap) eqn:Hu.
  - intros [= <- <-]. right. right. exists name, ap. cbn [data server exts].
    rewrite Hu. split_and!; try done. intros V. by rewrite flag_set_mark_handler.
  - intros [= <- <-]. right. right. exists name, ap. cbn [data server exts].
    rewrite Hu. split_and!; try done. intros V.
    apply handler_unset_false in Hu. unfold flag_set in *. simpl.
    split; [by right|]. by intros [->|].
Qed.

(** ** The registry stays well formed *)

Lemma initial_well_formed : well_formed initial_state.
Proof.
  split; simpl.
  - apply NoDup_nil_2.
  - intros V name policy H. by rewrite bucket_initial, lookup_empty in H.
  - intros V name policy H. by rewrite bucket_initial, lookup_empty in H.
  - intros V W name p q H. by rewrite bucket_initial, lookup_empty in H.
  - intros V H. inversion H.
Qed.

Lemma reset_well_formed (st : State) : well_formed st -> well_formed (reset st).
Proof.
  intros [_ _ _ _ Hexts]. split; simpl.
  - apply NoDup_nil_2.
  - intros V name policy H. by rewrite bucket_initial, lookup_empty in H.
  - intros V name policy H. by rewrite bucket_initial, lookup_empty in H.
  - intros V W name p q H. by rewrite bucket_initial, lookup_empty in H.
  - done.
Qed.

Lemma NoDup_snoc_fresh (l : list string) (x : string) :
  NoDup l -> x ∉ l -> NoDup (l ++ [x]).
Proof.
  intros Hl Hx. apply NoDup_app. split_and!; [done| |apply NoDup_singleton].
  intros y Hy Hy'. apply list_elem_of_singleton in Hy' as ->. done.
Qed.

Lemma addPolicy_well_formed (dflt : Value) (file : File) (st st' : State) (f : Failure) :
  well_formed st -> addPolicy dflt file st = Some (st', f) -> well_formed st'.
Proof.
  intros [Hnodup Hnames Hstage Huniq Hexts] H.
  apply addPolicy_registry in H as [(Hd & He & _)|[H|H]].
  - split; rewrite ?Hd, ?He; done.
  - destruct H as (name & _ & Hnin & Hd & He & _). split; rewrite ?Hd, ?He; simpl.
    + by apply NoDup_snoc_fresh.
    + intros V n p Hl. apply elem_of_app. left. by eapply Hnames.
    + done.
    + done.
    + done.
  - destruct H as (name & ap & _ & _ & Hnin & Hap & _ & Hattr & Hn & Hb & _ & He).
    assert (Hnew : forall V n p, bucket (data st') V !! n = Some p ->
              (V = ap /\ n = name /\ p = module file)
              \/ (n <> name /\ bucket (data st) V !! n = Some p)).
    { intros V n p Hl. rewrite Hb in Hl. case_decide as HV.
      - subst V. destruct (decide (n = name)) as [->|Hne].
        + rewrite lookup_insert_eq in Hl. left. by injection Hl as <-.
        + rewrite lookup_insert_ne in Hl by done. by right.
      - right. split; [|done]. intros ->. apply Hnin. by eapply Hnames. }
    split.
    + rewrite Hn. by apply NoDup_snoc_fresh.
    + intros V n p Hl. rewrite Hn. apply elem_of_app.
      destruct (Hnew _ _ _ Hl) as [(_ & -> & _)|[_ Hold]].
      * right. by apply list_elem_of_singleton.
      * left. by eapply Hnames.
    + intros V n p Hl.
      destruct (Hnew _ _ _ Hl) as [(-> & _ & ->)|[_ Hold]]; [done|].
      by eapply Hstage.
    + intros V W n p q HV HW.
      destruct (Hnew _ _ _ HV) as [(-> & -> & _)|[Hne1 Hold1]];
        destruct (Hnew _ _ _ HW) as [(-> & Hn2 & _)|[Hne2 Hold2]];
        try done. by eapply Huniq.
    + intros V HV. rewrite He in HV.
      destruct (handler_unset (data st) ap); [|by apply Hexts].
      apply elem_of_app in HV as [HV|HV]; [by apply Hexts|].
      by apply list_elem_of_singleton in HV as ->.
Qed.

Lemma loadPolicies_well_formed (options : Options) (st st' : State) (f : Failure) :
  well_formed st -> loadPolicies options st = Some (st', f) -> well_formed st'.
Proof.
  rewrite loadPolicies_eachSeries. apply eachSeries_preserves.
  intros file s s' f'. apply addPolicy_well_formed.
Qed.

Lemma history_well_formed (ops : list Op) (st st' : State) :
  well_formed st -> history ops st = Some st' -> well_formed st'.
Proof.
  revert st. induction ops as [|op ops IH]; intros st Hw H; simpl in H.
  - by inversion H; subst.
  - destruct op as [options|]; simpl in H.
    + destruct (loadPolicies options st) as [[st1 f]|] eqn:E; [|discriminate].
      simpl in H. eapply IH; [|done]. by eapply loadPolicies_well_formed.
    + eapply IH; [|done]. by apply reset_well_formed.
Qed.

(** In every state the module can reach, no name is registered twice, every
    table entry is a registered name filed under exactly one of the six
    stages, the stage its policy asks for when it asks for one, and the host
    was only ever given stages. *)
Theorem registry_stays_well_formed (ops : list Op) (st : State) :
  history ops initial_state = Some st ->
  NoDup (names (data st))
  /\ (forall V name policy,
        bucket (data st) V !! name = Some policy ->
        name ∈ names (data st) /\ V ∈ _applyPoints
        /\ (applyPoint policy = VStr V \/ applyPoint policy = VUndefined))
  /\ (forall V W name p q,
        bucket (data st) V !! name = Some p ->
        bucket (data st) W !! name = Some q -> V = W)
  /\ (forall V, dispatcher_installed st V -> V ∈ _applyPoints).
Proof.
  intros H.
  destruct (history_well_formed _ _ _ initial_well_formed H)
    as [Hnodup Hnames Hstage Huniq Hexts].
  split_and!; try done.
  intros V name policy Hl. split; [by eapply Hnames|by eapply Hstage].
Qed.

(** Instance: the registry after loading [passes.js]. *)
Lemma registry_stays_well_formed_witness :
  history [Load one_policy_dir] initial_state = Some after_one_policy /\
  NoDup (names (data after_one_policy))
  /\ (forall V name policy,
        bucket (data after_one_policy) V !! name = Some policy ->
        name ∈ names (data after_one_policy) /\ V ∈ _applyPoints
        /\ (applyPoint policy = VStr V \/ applyPoint policy = VUndefined))
  /\ (forall V W name p q,
        bucket (data after_one_policy) V !! name = Some p ->
        bucket (data after_one_policy) W !! name = Some q -> V = W)
  /\ (forall V, dispatcher_installed after_one_policy V -> V ∈ _applyPoints).
Proof.
  split; [reflexivity|].
  apply (registry_stays_well_formed [Load one_policy_dir] after_one_policy).
  reflexivity.
Defined.

Lemma extends_refl (st : State) : extends st st.
Proof. by split_and!. Qed.

Lemma extends_trans (st1 st2 st3 : State) :
  extends st1 st2 -> extends st2 st3 -> extends st1 st3.
Proof.
  intros (N1 & B1 & F1 & E1) (N2 & B2 & F2 & E2). split_and!.
  - by etrans.
  - intros V name policy H. by apply B2, B1.
  - intros V H. by apply F2, F1.
  - by etrans.
Qed.

Lemma addPolicy_extends (dflt : Value) (file : File) (st st' : State) (f : Failure) :
  well_formed st -> addPolicy dflt file st = Some (st', f) -> extends st st'.
Proof.
  intros [_ Hnames _ _ _] H. unfold extends.
  apply addPolicy_registry in H as [(Hd & He & _)|[H|H]].
  - by rewrite Hd, He.
  - destruct H as (name & _ & _ & Hd & He & _). rewrite Hd, He. simpl.
    split_and!; try done. by apply prefix_app_r.
  - destruct H as (name & ap & _ & _ & Hnin & _ & _ & _ & Hn & Hb & Hf & He).
    split_and!.
    + rewrite Hn. by apply prefix_app_r.
    + intros V n p Hl. rewrite Hb. case_decide as HV; [|done]. subst V.
      rewrite lookup_insert_ne; [done|]. intros <-. apply Hnin. by eapply Hnames.
    + intros V HV. apply Hf. by right.
    + rewrite He. destruct (handler_unset (data st) ap); [|done].
      by apply prefix_app_r.
Qed.

Lemma loadPolicies_extends (options : Options) (st st' : State) (f : Failure) :
  well_formed st -> loadPolicies options st = Some (st', f) ->
  extends st st' /\ well_formed st'.
Proof.
  intros Hw. rewrite loadPolicies_eachSeries.
  apply (eachSeries_preserves _ (fun s => extends st s /\ well_formed s)).
  - intros file s s' f' [Hext Hwf] Hadd. split.
    + eapply extends_trans; [done|]. by eapply addPolicy_extends.
    + by eapply addPolicy_well_formed.
  - split; [apply extends_refl|done].
Qed.

(** A load never unregisters anything, whether it succeeds or fails: the
    names, the table entries, the flags and the installed handlers of the
    state it starts from are all still there afterwards. *)
Theorem load_never_unregisters (ops : list Op) (options : Options)
    (st st' : State) (f : Failure) :
  history ops initial_state = Some st ->
  loadPolicies options st = Some (st', f) ->
  names (data st) `prefix_of` names (data st')
  /\ (forall V name policy,
        bucket (data st) V !! name = Some policy ->
        bucket (data st') V !! name = Some policy)
  /\ (forall V, flag_set (data st) V -> flag_set (data st') V)
  /\ exts (server st) `prefix_of` exts (server st').
Proof.
  intros Hhist Hload.
  pose proof (history_well_formed _ _ _ initial_well_formed Hhist) as Hw.
  by destruct (loadPolicies_extends _ _ _ _ Hw Hload).
Qed.

(** Instance: loading a directory with a disabled policy on top of
    [passes.js]. *)
Lemma load_never_unregisters_witness :
  exists st' f,
    loadPolicies (mkOptions VUndefined [mkFile "disabled.js" disabled]) after_one_policy
      = Some (st', f)
    /\ names (data after_one_policy) `prefix_of` names (data st')
    /\ (forall V name policy,
          bucket (data after_one_policy) V !! name = Some policy ->
          bucket (data st') V !! name = Some policy)
    /\ (forall V, flag_set (data after_one_policy) V -> flag_set (data st') V)
    /\ exts (server after_one_policy) `prefix_of` exts (server st').
Proof.
  eexists _, _. split; [reflexivity|].
  eapply (load_never_unregisters [Load one_policy_dir]
            (mkOptions VUndefined [mkFile "disabled.js" disabled]) after_one_policy).
  - reflexivity.
  - reflexivity.
Defined.

(** ** What a load returns *)

Lemma addPolicy_ok_names (dflt : Value) (file : File) (st st' : State) :
  addPolicy dflt file st = Some (st', None) ->
  names (data st') = (names (data st) ++ policy_names [file])%list.
Proof.
  intros H. unfold policy_names. simpl.
  apply addPolicy_registry in H as [(Hd & _ & H)|[H|H]].
  - destruct H as [(_ & -> & ->)|(name & _ & _ & ?)]; [|discriminate].
    by rewrite app_nil_r.
  - destruct H as (name & -> & _ & -> & _). done.
  - destruct H as (name & ap & _ & -> & _ & _ & _ & _ & -> & _). done.
Qed.

Lemma policy_names_cons (file : File) (files : list File) :
  policy_names (file :: files) = (policy_names [file] ++ policy_names files)%list.
Proof. unfold policy_names. simpl. by destruct (match_js (filename file)). Qed.

Lemma eachSeries_ok_names (dflt : Value) (files : list File) (st st' : State) :
  eachSeries (addPolicy dflt) files st = Some (st', None) ->
  names (data st') = (names (data st) ++ policy_names files)%list.
Proof.
  revert st. induction files as [|file files IH]; intros st H; simpl in H.
  - injection H as <-. by rewrite app_nil_r.
  - destruct (addPolicy dflt file st) as [[s1 [m|]]|] eqn:E; try discriminate.
    rewrite (IH _ H), (addPolicy_ok_names _ _ _ _ E), (policy_names_cons file files).
    by rewrite app_assoc.
Qed.

(** A load that reports no error has appended to [data.names] the names of
    the directory's [.js] files, in the order of the listing, and nothing
    else; so these names were all new and pairwise different. *)
Theorem load_appends_names_in_order (ops : list Op) (options : Options)
    (st st' : State) :
  history ops initial_state = Some st ->
  loadPolicies options st = Some (st', None) ->
  names (data st') = (names (data st) ++ policy_names (policyDirectory options))%list
  /\ NoDup (policy_names (policyDirectory options))
  /\ (forall name, name ∈ policy_names (policyDirectory options) ->
                   name ∉ names (data st)).
Proof.
  intros Hhist Hload.
  pose proof (history_well_formed _ _ _ initial_well_formed Hhist) as Hw.
  destruct (loadPolicies_well_formed _ _ _ _ Hw Hload) as [Hnodup _ _ _ _].
  rewrite loadPolicies_eachSeries in Hload.
  apply eachSeries_ok_names in Hload. rewrite Hload in Hnodup.
  apply NoDup_app in Hnodup as (_ & Hdisj & Hnew).
  split_and!; [done|done|]. intros name Hin Hold. by eapply Hdisj.
Qed.

(** Instance: [passes.js] loaded into the initial registry. *)
Lemma load_appends_names_in_order_witness :
  history [] initial_state = Some initial_state /\
  loadPolicies one_policy_dir initial_state = Some (after_one_policy, None) /\
  names (data after_one_policy)
    = (names (data initial_state) ++ policy_names (policyDirectory one_policy_dir))%list
  /\ NoDup (policy_names (policyDirectory one_policy_dir))
  /\ (forall name, name ∈ policy_names (policyDirectory one_policy_dir) ->
                   name ∉ names (data initial_state)).
Proof.
  split; [reflexivity|]. split; [reflexivity|].
  apply (load_appends_names_in_order [] one_policy_dir initial_state after_one_policy).
  - reflexivity.
  - reflexivity.
Defined.

(** The only errors a load reports are the two of [addPolicy]: some file of
    the directory has a name that was already registered when its turn came,
    or carries an apply point that is neither falsy nor one of the six
    stages. *)
Theorem load_error_kinds (options : Options) (st st' : State) (m : Message) :
  loadPolicies options st = Some (st', Some m) ->
  exists file name,
    file ∈ policyDirectory options
    /\ match_js (filename file) = Some name
    /\ (m = Text ("Trying to add a duplicate policy: " ++ name)
        \/ (m = Concat "Trying to set incorrect applyPoint for the policy: "
                       (applyPoint (module file))
            /\ hasValidApplyPoint (module file) = false)).
Proof.
  rewrite loadPolicies_eachSeries.
  generalize (js_or (opt_defaultApplyPoint options) (VStr "onPreHandler")).
  generalize (policyDirectory options). intros files dflt. revert st.
  induction files as [|file files IH]; intros st H; simpl in H; [discriminate|].
  destruct (addPolicy dflt file st) as [[s1 [m'|]]|] eqn:E; try discriminate.
  - injection H as <- <-. exists file.
    apply addPolicy_registry in E as [(_ & _ & E)|[E|E]].
    + destruct E as [(? & _)|(name & Hm & _ & [= ->])]; [discriminate|].
      exists name. split_and!; [by left|done|by left].
    + destruct E as (name & Hm & _ & _ & _ & [(? & _)|[[= ->] Hv]]); [discriminate|].
      exists name. split_and!; [by left|done|by right].
    + destruct E as (name & ap & ? & _); discriminate.
  - destruct (IH _ H) as (file' & name & Hin & Hrest).
    exists file', name. split; [by right|done].
Qed.

(** Instance: the directory of [passes.js] loaded a second time. *)
Lemma load_error_kinds_witness :
  exists st' m,
    loadPolicies one_policy_dir after_one_policy = Some (st', Some m)
    /\ exists file name,
         file ∈ policyDirectory one_policy_dir
         /\ match_js (filename file) = Some name
         /\ (m = Text ("Trying to add a duplicate policy: " ++ name)
             \/ (m = Concat "Trying to set incorrect applyPoint for the policy: "
                            (applyPoint (module file))
                 /\ hasValidApplyPoint (module file) = false)).
Proof.
  eexists _, _. split; [reflexivity|].
  eapply (load_error_kinds one_policy_dir after_one_policy). reflexivity.
Defined.

(** Loading a directory listing in two parts is loading it in one go: when
    the first part loads without error, the whole listing gives what the
    second part gives from the state the first part left; an empty listing
    changes nothing and reports nothing. *)
Theorem load_composes (dflt : Value) (first second : list File) (st st1 : State) :
  loadPolicies (mkOptions dflt first) st = Some (st1, None) ->
  loadPolicies (mkOptions dflt (first ++ second)) st
    = loadPolicies (mkOptions dflt second) st1
  /\ loadPolicies (mkOptions dflt []) st1 = Some (st1, None).
Proof.
  rewrite !loadPolicies_eachSeries. simpl. intros H. split; [|done].
  by apply eachSeries_app_ok.
Qed.

(** Instance: [passes.js] followed by [third.js]. *)
Lemma load_composes_witness :
  loadPolicies (mkOptions VUndefined [mkFile "passes.js" passes]) initial_state
    = Some (after_one_policy, None) /\
  loadPolicies (mkOptions VUndefined
                  ([mkFile "passes.js" passes] ++ [mkFile "third.js" third]))
               initial_state
    = loadPolicies (mkOptions VUndefined [mkFile "third.js" third]) after_one_policy
  /\ loadPolicies (mkOptions VUndefined []) after_one_policy
     = Some (after_one_policy, None).
Proof.
  split; [reflexivity|].
  apply (load_composes VUndefined [mkFile "passes.js" passes]
           [mkFile "third.js" third] initial_state after_one_policy).
  reflexivity.
Defined.

Lemma eachSeries_all_known (dflt : Value) (files : list File) (st : State)
    (name : string) (rest : list string) :
  (forall n, n ∈ policy_names files -> n ∈ names (data st)) ->
  policy_names files = name :: rest ->
  exists st2,
    eachSeries (addPolicy dflt) files st
      = Some (st2, Some (Text ("Trying to add a duplicate policy: " ++ name)))
    /\ data st2 = data st /\ exts (server st2) = exts (server st).
Proof.
  induction files as [|file files IH]; intros Hknown Hfirst; [discriminate|].
  rewrite policy_names_cons in Hknown, Hfirst. unfold policy_names at 1 in Hfirst.
  unfold policy_names at 1 in Hknown. simpl in *.
  destruct (match_js (filename file)) as [n|] eqn:Hm; simpl in *.
  - injection Hfirst as -> _.
    assert (Hin : name ∈ names (data st)) by (apply Hknown; by left).
    rewrite (addPolicy_duplicate _ _ _ _ Hm Hin). eauto.
  - rewrite (addPolicy_skip _ _ _ Hm). by apply IH.
Qed.

(** Loading a directory a second time, after a load of it that reported no
    error, fails at its first [.js] file with the duplicate-policy error and
    leaves the registry and the installed handlers as the first load left
    them. *)
Theorem second_load_is_rejected (options : Options) (st st1 : State)
    (name : string) (rest : list string) :
  loadPolicies options st = Some (st1, None) ->
  policy_names (policyDirectory options) = name :: rest ->
  exists st2,
    loadPolicies options st1
      = Some (st2, Some (Text ("Trying to add a duplicate policy: " ++ name)))
    /\ data st2 = data st1
    /\ exts (server st2) = exts (server st1).
Proof.
  rewrite !loadPolicies_eachSeries. intros Hload Hfirst.
  apply eachSeries_ok_names in Hload.
  apply (eachSeries_all_known _ _ _ name rest); [|done].
  intros n Hn. rewrite Hload. apply elem_of_app. by right.
Qed.

(** Instance: the directory of [passes.js], twice. *)
Lemma second_load_is_rejected_witness :
  loadPolicies one_policy_dir initial_state = Some (after_one_policy, None) /\
  policy_names (policyDirectory one_policy_dir) = ["passes"] /\
  exists st2,
    loadPolicies one_policy_dir after_one_policy
      = Some (st2, Some (Text ("Trying to add a duplicate policy: " ++ "passes")))
    /\ data st2 = data after_one_policy
    /\ exts (server st2) = exts (server after_one_policy).
Proof.
  split; [reflexivity|]. split; [reflexivity|].
  apply (second_load_is_rejected one_policy_dir initial_state after_one_policy
           "passes" []).
  - reflexivity.
  - reflexivity.
Defined.

(** What [addPolicy] does to the registry and which handlers it installs
    depends on the registry alone, not on the host. *)
Lemma addPolicy_data_only (dflt : Value) (file : File) (st t st' : State) (f : Failure) :
  data st = data t ->
  addPolicy dflt file st = Some (st', f) ->
  exists t' added,
    addPolicy dflt file t = Some (t', f)
    /\ data t' = data st'
    /\ exts (server st') = (exts (server st) ++ added)%list
    /\ exts (server t') = (exts (server t) ++ added)%list.
Proof.
  intros Hd. unfold addPolicy. rewrite <- Hd.
  destruct (match_js (filename file)) as [name|].
  2:{ intros [= <- <-]. exists t, []. by rewrite !app_nil_r. }
  destruct (negb (indexOf (names (data st)) name =? -1)%Z).
  { intros [= <- <-]. eexists _, []. by rewrite !app_nil_r. }
  destruct (negb (hasValidApplyPoint (module file))).
  { intros [= <- <-]. eexists _, []. by rewrite !app_nil_r. }
  destruct (_ || _).
  2:{ intros [= <- <-]. eexists _, []. by rewrite !app_nil_r. }
  destruct (js_or _ _) as [| | | |ap|]; try discriminate.
  destruct (negb (indexOf _applyPoints ap =? -1)%Z); [|discriminate].
  destruct (handler_unset _ ap).
  - intros [= <- <-]. by eexists _, [ap].
  - intros [= <- <-]. eexists _, []. by rewrite !app_nil_r.
Qed.

Lemma eachSeries_data_only (dflt : Value) (files : list File) (st t st' : State)
    (f : Failure) :
  data st = data t ->
  eachSeries (addPolicy dflt) files st = Some (st', f) ->
  exists t' added,
    eachSeries (addPolicy dflt) files t = Some (t', f)
    /\ data t' = data st'
    /\ exts (server st') = (exts (server st) ++ added)%list
    /\ exts (server t') = (exts (server t) ++ added)%list.
Proof.
  revert st t. induction files as [|file files IH]; intros st t Hd H; simpl in *.
  - injection H as <- <-. exists t, []. by rewrite !app_nil_r.
  - destruct (addPolicy dflt file st) as [[s1 [m|]]|] eqn:E; try discriminate.
    + injection H as <- <-.
      destruct (addPolicy_data_only _ _ _ _ _ _ Hd E) as (t1 & added & -> & H1).
      by exists t1, added.
    + destruct (addPolicy_data_only _ _ _ _ _ _ Hd E)
        as (t1 & added1 & -> & Hd1 & He1 & He1').
      destruct (IH _ _ (eq_sym Hd1) H) as (t' & added2 & -> & Hd2 & He2 & He2').
      exists t', (added1 ++ added2)%list. split_and!; [done|done| |].
      * by rewrite He2, He1, app_assoc.
      * by rewrite He2', He1', app_assoc.
Qed.

(** After a [reset], loading the directory that built the registry rebuilds
    the same registry and reports the same result, and it hands to the host,
    once more, every handler the first load had installed: the host ends up
    with each of them twice. *)
Theorem reload_after_reset (options : Options) (st st1 : State) (f : Failure) :
  data st = initial_data ->
  loadPolicies options st = Some (st1, f) ->
  exists st2 added,
    loadPolicies options (reset st1) = Some (st2, f)
    /\ data st2 = data st1
    /\ exts (server st1) = (exts (server st) ++ added)%list
    /\ exts (server st2) = (exts (server st1) ++ added)%list.
Proof.
  rewrite !loadPolicies_eachSeries. intros Hd Hload.
  assert (Hd' : data st = data (reset st1)) by done.
  destruct (eachSeries_data_only _ _ _ _ _ _ Hd' Hload) as (st2 & added & H).
  by exists st2, added.
Qed.

(** Instance: [passes.js] loaded, the registry reset, [passes.js] loaded
    again. *)
Lemma reload_after_reset_witness :
  data initial_state = initial_data /\
  loadPolicies one_policy_dir initial_state = Some (after_one_policy, None) /\
  exists st2 added,
    loadPolicies one_policy_dir (reset after_one_policy) = Some (st2, None)
    /\ data st2 = data after_one_policy
    /\ exts (server after_one_policy) = (exts (server initial_state) ++ added)%list
    /\ exts (server st2) = (exts (server after_one_policy) ++ added)%list.
Proof.
  split; [reflexivity|]. split; [reflexivity|].
  apply (reload_after_reset one_policy_dir initial_state after_one_policy None).
  - reflexivity.
  - reflexivity.
Defined.

(** ** Registering and finding a policy *)

Lemma handler_single_name (stage : string) (d : Data) (dflt : Value) (name : string)
    (r : Reply) :
  name ∈ names d ->
  handler stage d dflt (Some [DVal (VStr name)]) r
  = runPolicies (match bucket d stage !! name with
                 | Some policy => [policy]
                 | None => []
                 end) r.
Proof.
  intros Hin. unfold handler. simpl. unfold reduce_step. simpl.
  rewrite (indexOf_present _ _ Hin).
  by destruct (bucket d stage !! name).
Qed.

Lemma stage_entry_installed (st : State) (stage : string) (dflt : Value)
    (route : option (list Directive)) (r : Reply) :
  stage ∈ _applyPoints ->
  dispatcher_installed st stage ->
  stage_entry st stage dflt route r = Some (handler stage (data st) dflt route r).
Proof.
  intros Hstage Hinst. unfold stage_entry, handlers.
  rewrite bool_decide_eq_true_2 by done. by rewrite (indexOf_present _ _ Hstage).
Qed.

(** Registering and looking up: a file with a new name whose policy asks
    for a stage, or for none and then gets the default, is entered under
    that stage; its name is registered, the stage's flag is set and its
    handler is installed at the host; and a request that reaches that stage
    on a route naming the policy has exactly that policy called. *)
Theorem registered_policy_is_found (ops : list Op) (dflt dflt2 : Value) (file : File)
    (st : State) (name stage : string) (r : Reply) (events : list Event) :
  history ops initial_state = Some st ->
  match_js (filename file) = Some name ->
  name ∉ names (data st) ->
  applyPoint (module file) = VUndefined \/ truthy (applyPoint (module file)) = true ->
  js_or (applyPoint (module file)) dflt = VStr stage ->
  stage ∈ _applyPoints ->
  exists st',
    addPolicy dflt file st = Some (st', None)
    /\ name ∈ names (data st')
    /\ bucket (data st') stage !! name = Some (module file)
    /\ flag_set (data st') stage
    /\ dispatcher_installed st' stage
    /\ exists x,
         stage_entry st' stage dflt2 (Some [DVal (VStr name)]) r = Some x
         /\ invoked (run x events) = [module file].
Proof.
  intros Hhist Hm Hnin Hattr Hap Hstage.
  pose proof (history_consistent _ _ _ initial_consistent Hhist) as Hcons.
  assert (Hret : exists st' f, addPolicy dflt file st = Some (st', f)).
  { unfold addPolicy. rewrite Hm, (indexOf_absent _ _ Hnin). simpl.
    destruct (negb (hasValidApplyPoint (module file))); [eauto|].
    destruct (_ || _); [|eauto]. rewrite Hap, (indexOf_present _ _ Hstage). simpl.
    destruct (handler_unset _ stage); eauto. }
  destruct Hret as (st' & f & Hadd). exists st'.
  pose proof (addPolicy_consistent _ _ _ _ _ Hcons Hadd) as [_ Hinst'].
  pose proof Hadd as Hreg.
  apply addPolicy_registry in Hreg as [(_ & _ & H)|[H|H]].
  - exfalso. destruct H as [(_ & H & _)|(n & H & Hin & _)]; [congruence|].
    rewrite Hm in H. injection H as <-. done.
  - exfalso. destruct H as (n & _ & _ & _ & _ & [(_ & Hf & Hu & _)|(_ & Hv)]).
    + destruct Hattr as [Hundef|Ht]; congruence.
    + apply not_true_iff_false in Hv. apply Hv. apply hasValidApplyPoint_spec.
      destruct Hattr as [Hundef|Ht]; [left; by rewrite Hundef|].
      right. exists stage. split; [|done]. unfold js_or in Hap. by rewrite Ht in Hap.
  - destruct H as (n & ap & -> & Hm' & _ & _ & Hap' & _ & Hn & Hb & Hf & _).
    rewrite Hm in Hm'. injection Hm' as <-.
    rewrite Hap in Hap'. injection Hap' as <-.
    assert (Hin : name ∈ names (data st')).
    { rewrite Hn. apply elem_of_app. right. by apply list_elem_of_singleton. }
    assert (Hlook : bucket (data st') stage !! name = Some (module file)).
    { rewrite Hb. rewrite decide_True by done. by rewrite lookup_insert_eq. }
    assert (Hflag : flag_set (data st') stage) by (apply Hf; by left).
    assert (Hdisp : dispatcher_installed st' stage) by by apply Hinst'.
    split_and!; try done.
    eexists. split; [by apply stage_entry_installed|].
    rewrite (handler_single_name _ _ _ _ _ Hin), Hlook.
    by apply run_single_invoked.
Qed.

(** Instance: [post_auth.js], which asks for the post-authentication stage,
    registered on top of [passes.js]. *)
Lemma registered_policy_is_found_witness :
  exists st',
    addPolicy (VStr "onPreHandler") (mkFile "post_auth.js" post_auth) after_one_policy
      = Some (st', None)
    /\ "post_auth" ∈ names (data st')
    /\ bucket (data st') "onPostAuth" !! "post_auth" = Some post_auth
    /\ flag_set (data st') "onPostAuth"
    /\ dispatcher_installed st' "onPostAuth"
    /\ exists x,
         stage_entry st' "onPostAuth" (VStr "onPreHandler")
                     (Some [DVal (VStr "post_auth")]) fresh_reply = Some x
         /\ invoked (run x [Signal VNull (VBool true) VUndefined]) = [post_auth].
Proof.
  apply (registered_policy_is_found [Load one_policy_dir] (VStr "onPreHandler")
           (VStr "onPreHandler") (mkFile "post_auth.js" post_auth) after_one_policy
           "post_auth" "onPostAuth" fresh_reply
           [Signal VNull (VBool true) VUndefined]).
  - reflexivity.
  - reflexivity.
  - decided.
  - right. reflexivity.
  - reflexivity.
  - decided.
Defined.





(** ** Reset *)

(** [reset] empties the registry and nothing else: names, flags and tables
    are those of a freshly loaded module, the host keeps its handlers and
    its log, resetting twice is resetting once, and from then on a route
    that names any policy is answered, at every stage, with the
    missing-policy error. *)
Theorem reset_forgets_every_policy (st : State) (stage name : string) (dflt : Value)
    (r : Reply) :
  data (reset st) = initial_data
  /\ server (reset st) = server st
  /\ reset (reset st) = reset st
  /\ names (data (reset st)) = []
  /\ (forall V, ~ flag_set (data (reset st)) V /\ ~ targeted (data (reset st)) V)
  /\ (forall V, dispatcher_installed (reset st) V <-> dispatcher_installed st V)
  /\ handler stage (data (reset st)) dflt (Some [DVal (VStr name)]) r
     = idle (reply_with (NotImplemented (Text ("Missing policy: " ++ name))) r).
Proof.
  split_and!; try done.
  intros V. split.
  - unfold flag_set. simpl. by rewrite lookup_empty.
  - apply initial_not_targeted.
Qed.

(** ** Registration of the plugin *)

Lemma js_or_default_idem (dflt : Value) :
  js_or (js_or dflt (VStr "onPreHandler")) (VStr "onPreHandler")
  = js_or dflt (VStr "onPreHandler").
Proof. unfold js_or. destruct (truthy dflt) eqn:E; [by rewrite E|done]. Qed.

(** [register] refuses exactly the configurations whose default apply
    point, once the missing one is replaced by the pre-handler stage, is not
    one of the six stages. When it accepts, the default it exposes is that
    stage; without a policy directory it changes nothing and reports
    nothing, with one it reports what loading the directory reports. *)
Theorem register_checks_default (dflt : Value) (dir : option (list File)) (st : State) :
  (register dflt dir st = None
   <-> indexOf_value _applyPoints (js_or dflt (VStr "onPreHandler")) = (-1)%Z)
  /\ (truthy dflt = false -> js_or dflt (VStr "onPreHandler") = VStr "onPreHandler")
  /\ (forall st' err exposed,
        register dflt dir st = Some (st', err, exposed) ->
        exposed = js_or dflt (VStr "onPreHandler")
        /\ (exists stage, exposed = VStr stage /\ stage ∈ _applyPoints)
        /\ match dir with
           | None => st' = st /\ err = None
           | Some files => loadPolicies (mkOptions dflt files) st = Some (st', err)
           end).
Proof.
  split_and!.
  - split.
    + intros Hnone.
      destruct (indexOf_value _applyPoints (js_or dflt (VStr "onPreHandler")) =? -1)%Z
        eqn:E; [by apply Z.eqb_eq|].
      destruct (register_returns dflt dir st E) as (st' & err & stage & H & _).
      congruence.
    + intros H. unfold register. by rewrite H.
  - intros H. unfold js_or. by rewrite H.
  - intros st' err exposed. unfold register.
    destruct (indexOf_value _applyPoints (js_or dflt (VStr "onPreHandler")) =? -1)%Z
      eqn:E; [discriminate|].
    assert (Hstage : exists stage, js_or dflt (VStr "onPreHandler") = VStr stage
                                   /\ stage ∈ _applyPoints).
    { destruct (js_or dflt (VStr "onPreHandler")) as [| | | |stage|];
        try discriminate.
      exists stage. split; [done|]. by apply indexOf_elem_of. }
    destruct dir as [files|].
    + rewrite (loadPolicies_eachSeries (mkOptions dflt files)).
      rewrite loadPolicies_eachSeries. cbn [opt_defaultApplyPoint policyDirectory].
      rewrite js_or_default_idem.
      destruct (eachSeries _ files st) as [[s1 f]|]; [|discriminate].
      intros [= <- <- <-]. done.
    + intros [= <- <- <-]. done.
Qed.

(** ** Policy names *)








(** ** Resolution of a route's list *)

Lemma reduce_step_resolved (stage : string) (d : Data) (dflt : Value)
    (directive : Directive) (acc : Reduce) :
  repliedWithError acc = false ->
  resolvable d directive = true ->
  reduce_step stage d dflt acc directive
  = match target_policy stage d dflt directive with
    | Some policy => push policy acc
    | None => acc
    end.
Proof.
  intros Hacc Hres. unfold reduce_step. rewrite Hacc.
  destruct directive as [v|p]; simpl in *.
  - destruct v as [| | | |name|]; try discriminate.
    rewrite Hres. apply bool_decide_eq_true_1 in Hres.
    by rewrite (indexOf_present _ _ Hres).
  - rewrite Hres. simpl. by case_bool_decide.
Qed.

Lemma resolve_resolvable (stage : string) (d : Data) (dflt : Value)
    (ds : list Directive) (acc : Reduce) :
  repliedWithError acc = false ->
  forallb (resolvable d) ds = true ->
  foldl (reduce_step stage d dflt) acc ds
  = mkReduce false (tmpList acc ++ omap (target_policy stage d dflt) ds)
             (reduce_reply acc).
Proof.
  revert acc. induction ds as [|directive ds IH]; intros acc Hacc Hall; simpl.
  - rewrite app_nil_r. destruct acc; simpl in *. by subst.
  - apply andb_true_iff in Hall as [Hd Hall].
    rewrite (reduce_step_resolved _ _ _ _ _ Hacc Hd).
    destruct (target_policy stage d dflt directive) as [policy|].
    + rewrite IH by done. simpl. by rewrite <- app_assoc.
    + by rewrite IH.
Qed.




Lemma resolve_first_error (stage : string) (d : Data) (dflt : Value)
    (before after : list Directive) (bad : Directive) (e : Response) (r : Reply) :
  forallb (resolvable d) before = true ->
  (forall acc, repliedWithError acc = false ->
               reduce_step stage d dflt acc bad = fail_with e acc) ->
  handler stage d dflt (Some (before ++ bad :: after)%list) r = idle (reply_with e r).
Proof.
  intros Hall Hbad. unfold handler.
  rewrite foldl_app, (resolve_resolvable _ _ _ _ (mkReduce false [] r) eq_refl Hall).
  simpl.
  rewrite Hbad by done. by rewrite resolve_after_error.
Qed.

(** An entry of the route's list that is neither a string nor a function
    makes the handler reply with the bad-implementation error, once every
    entry before it has resolved; nothing is run, not even the policies
    resolved before it. *)
Theorem malformed_entry_is_rejected (stage : string) (d : Data) (dflt : Value)
    (before after : list Directive) (v : Value) (r : Reply) (events : list Event) :
  forallb (resolvable d) before = true ->
  (forall s, v <> VStr s) ->
  let x := handler stage d dflt (Some (before ++ DVal v :: after)%list) r in
  x = idle (reply_with
              (BadImplementation (Text "Policy not specified by name or by function."))
              r)
  /\ invoked (run x events) = [].
Proof.
  intros Hall Hv x. subst x.
  rewrite (resolve_first_error _ _ _ _ _ _
             (BadImplementation (Text "Policy not specified by name or by function."))
             _ Hall).
  - split; [done|]. by apply run_invoked_nil.
  - intros acc Hacc. unfold reduce_step. rewrite Hacc.
    destruct v as [| | | |s|]; try done. by destruct (Hv s).
Qed.

(** Instance: a number after a registered name. *)
Lemma malformed_entry_is_rejected_witness :
  let x := handler "onPreHandler" (data after_one_policy) (VStr "onPreHandler")
             (Some ([DVal (VStr "passes")] ++ DVal (VNum 7) :: [DFun third])%list)
             fresh_reply in
  x = idle (reply_with
              (BadImplementation (Text "Policy not specified by name or by function."))
              fresh_reply)
  /\ invoked (run x [Signal VNull (VBool true) VUndefined]) = [].
Proof.
  apply (malformed_entry_is_rejected "onPreHandler" (data after_one_policy)
           (VStr "onPreHandler") [DVal (VStr "passes")] [DFun third] (VNum 7)
           fresh_reply [Signal VNull (VBool true) VUndefined]).
  - reflexivity.
  - discriminate.
Defined.

(** An inline function whose apply point is truthy and not one of the six
    stages makes the handler of every stage reply with the
    bad-implementation error that quotes the apply point, once every entry
    before it has resolved; nothing is run. *)
Theorem inline_policy_with_unknown_stage_is_rejected (stage : string) (d : Data)
    (dflt : Value) (before after : list Directive) (policy : Policy) (r : Reply)
    (events : list Event) :
  forallb (resolvable d) before = true ->
  hasValidApplyPoint policy = false ->
  let x := handler stage d dflt (Some (before ++ DFun policy :: after)%list) r in
  x = idle (reply_with
              (BadImplementation
                 (Concat "Trying to use incorrect applyPoint for the dynamic policy: "
                         (applyPoint policy))) r)
  /\ invoked (run x events) = [].
Proof.
  intros Hall Hv x. subst x.
  rewrite (resolve_first_error _ _ _ _ _ _
             (BadImplementation
                (Concat "Trying to use incorrect applyPoint for the dynamic policy: "
                        (applyPoint policy))) _ Hall).
  - split; [done|]. by apply run_invoked_nil.
  - intros acc Hacc. unfold reduce_step. by rewrite Hacc, Hv.
Qed.

(** Instance: an inline function tagged [onEverything]. *)
Lemma inline_policy_with_unknown_stage_is_rejected_witness :
  let x := handler "onPreHandler" (data after_one_policy) (VStr "onPreHandler")
             (Some ([DVal (VStr "passes")] ++ DFun misplaced :: [DFun third])%list)
             fresh_reply in
  x = idle (reply_with
              (BadImplementation
                 (Concat "Trying to use incorrect applyPoint for the dynamic policy: "
                         (applyPoint misplaced))) fresh_reply)
  /\ invoked (run x [Signal VNull (VBool true) VUndefined]) = [].
Proof.
  apply (inline_policy_with_unknown_stage_is_rejected "onPreHandler"
           (data after_one_policy) (VStr "onPreHandler") [DVal (VStr "passes")]
           [DFun third] misplaced fresh_reply [Signal VNull (VBool true) VUndefined]).
  - reflexivity.
  - reflexivity.
Defined.

(** An inline policy runs at the stage its apply point names and, when the
    apply point is falsy, at the default stage: unlike a stored policy, an
    inline one whose apply point is [false], [null], [0] or the empty
    string is not disabled. At every other stage it is left out. *)
Theorem inline_policy_effective_stage (stage : string) (d : Data) (dflt : Value)
    (policy : Policy) (r : Reply) (events : list Event) :
  hasValidApplyPoint policy = true ->
  let x := handler stage d dflt (Some [DFun policy]) r in
  invoked (run x events)
    = (if bool_decide (js_or (applyPoint policy) dflt = VStr stage)
       then [policy] else [])
  /\ (truthy (applyPoint policy) = false -> dflt = VStr stage ->
      invoked (run x events) = [policy]).
Proof.
  intros Hv x. subst x.
  assert (Hmain : invoked (run (handler stage d dflt (Some [DFun policy]) r) events)
                  = if bool_decide (js_or (applyPoint policy) dflt = VStr stage)
                    then [policy] else []).
  { unfold handler. simpl. unfold reduce_step. simpl. rewrite Hv. simpl.
    case_bool_decide.
    - by apply run_single_invoked.
    - by apply run_invoked_nil. }
  split; [done|]. intros Hf ->. rewrite Hmain. unfold js_or. rewrite Hf.
  by rewrite bool_decide_eq_true_2.
Qed.

(** Instance: an inline policy whose apply point is [false], at the default
    stage. *)
Lemma inline_policy_effective_stage_witness :
  let x := handler "onPreHandler" initial_data (VStr "onPreHandler")
             (Some [DFun disabled]) fresh_reply in
  invoked (run x [])
    = (if bool_decide (js_or (applyPoint disabled) (VStr "onPreHandler")
                       = VStr "onPreHandler")
       then [disabled] else [])
  /\ (truthy (applyPoint disabled) = false ->
      VStr "onPreHandler" = VStr "onPreHandler" ->
      invoked (run x []) = [disabled]).
Proof.
  apply (inline_policy_effective_stage "onPreHandler" initial_data
           (VStr "onPreHandler") disabled fresh_reply []).
  reflexivity.
Defined.



(** ** Runs that complete, and runs that fail with an error *)

Lemma run_completes (policies : list Policy) (r : Reply) (signals : list Event)
    (e : Event) :
  S (length signals) = length policies ->
  Forall (fun e => is_continue e = true) signals ->
  is_continue e = true ->
  run (runPolicies policies r) (signals ++ [e])
  = mkExec policies (length policies) true (final_callback None r) policies.
Proof.
  intros Hlen Hall He.
  rewrite run_snoc, run_continues by (done || lia).
  destruct e as [err canContinue message|]; [|discriminate].
  simpl in He. apply andb_true_iff in He as [Herr Hcan].
  apply negb_true_iff in Herr.
  rewrite take_ge by lia. unfold step. cbn [invoked].
  destruct policies as [|p ps]; [discriminate|].
  unfold checkPolicy. rewrite Herr, Hcan. unfold next.
  cbn [policiesToRun completed callback_live reply invoked].
  destruct (Nat.leb_spec (length (p :: ps)) (S (length signals))); [|lia].
  by rewrite Hlen.
Qed.

(** When every policy of the list lets the request pass, all of them have
    been called, in the order of the list, and the run sends the one outcome
    continue, after the last signal and not before. *)
Theorem all_policies_pass (policies : list Policy) (r : Reply)
    (signals : list Event) :
  length signals = length policies ->
  Forall (fun e => is_continue e = true) signals ->
  _replied r = false ->
  invoked (run (runPolicies policies r) signals) = policies
  /\ reply (run (runPolicies policies r) signals) = reply_continue r
  /\ (forall j, (j < length signals)%nat ->
        reply (run (runPolicies policies r) (take j signals)) = r).
Proof.
  intros Hlen Hall Hr.
  assert (Hend : final_callback None r = reply_continue r).
  { unfold final_callback. by rewrite Hr. }
  split_and!.
  - destruct signals as [|e signals _] using rev_ind.
    + by destruct policies.
    + rewrite length_app in Hlen. simpl in Hlen.
      apply Forall_app in Hall as [Hall He]. rewrite Forall_singleton in He.
      by rewrite run_completes by (done || lia).
  - destruct signals as [|e signals _] using rev_ind.
    + by destruct policies.
    + rewrite length_app in Hlen. simpl in Hlen.
      apply Forall_app in Hall as [Hall He]. rewrite Forall_singleton in He.
      by rewrite run_completes by (done || lia).
  - intros j Hj.
    assert (Hlenj : length (take j signals) = j) by (rewrite length_take; lia).
    rewrite run_continues; [done|lia|by apply Forall_take].
Qed.

(** Instance: two policies, two continue signals. *)
Lemma all_policies_pass_witness :
  invoked (run (runPolicies [passes; third] fresh_reply)
               [Signal VNull (VBool true) VUndefined;
                Signal VUndefined (VNum 1) VUndefined]) = [passes; third]
  /\ reply (run (runPolicies [passes; third] fresh_reply)
                [Signal VNull (VBool true) VUndefined;
                 Signal VUndefined (VNum 1) VUndefined])
     = reply_continue fresh_reply
  /\ (forall j, (j < 2)%nat ->
        reply (run (runPolicies [passes; third] fresh_reply)
                   (take j [Signal VNull (VBool true) VUndefined;
                            Signal VUndefined (VNum 1) VUndefined]))
        = fresh_reply).
Proof.
  apply (all_policies_pass [passes; third] fresh_reply
           [Signal VNull (VBool true) VUndefined;
            Signal VUndefined (VNum 1) VUndefined]).
  - reflexivity.
  - repeat constructor.
  - reflexivity.
Defined.

(** A policy that signals a truthy error ends the run with that very error
    as the reply, whatever it passes as [canContinue] and [message]: the
    error wins over a truthy [canContinue], and no later policy is called. *)
Theorem policy_error_is_passed_on (policies : list Policy) (r : Reply)
    (signals : list Event) (err canContinue message : Value) :
  truthy err = true ->
  (length signals < length policies)%nat ->
  Forall (fun e => is_continue e = true) signals ->
  _replied r = false ->
  checkPolicy err canContinue message = Some (Custom err)
  /\ reply (run (runPolicies policies r)
                (signals ++ [Signal err canContinue message]))
     = reply_with (Custom err) r
  /\ invoked (run (runPolicies policies r)
                  (signals ++ [Signal err canContinue message]))
     = take (S (length signals)) policies.
Proof.
  intros Herr Hlen Hall Hr.
  assert (Hcheck : checkPolicy err canContinue message = Some (Custom err)).
  { unfold checkPolicy. by rewrite Herr. }
  split; [done|]. rewrite (run_fails _ _ _ _ _ _ _ Hlen Hall Hcheck).
  cbn [reply invoked]. unfold final_callback. by rewrite Hr.
Qed.

(** Instance: the first of two policies signals an error object together
    with [canContinue = true]. *)
Lemma policy_error_is_passed_on_witness :
  checkPolicy (VObj 1) (VBool true) VUndefined = Some (Custom (VObj 1))
  /\ reply (run (runPolicies [passes; third] fresh_reply)
                ([] ++ [Signal (VObj 1) (VBool true) VUndefined]))
     = reply_with (Custom (VObj 1)) fresh_reply
  /\ invoked (run (runPolicies [passes; third] fresh_reply)
                  ([] ++ [Signal (VObj 1) (VBool true) VUndefined]))
     = take 1 [passes; third].
Proof.
  apply (policy_error_is_passed_on [passes; third] fresh_reply []
           (VObj 1) (VBool true) VUndefined).
  - reflexivity.
  - simpl. lia.
  - constructor.
  - reflexivity.
Defined.

(** ** One outcome per handler call *)





(** The validity test of an apply point accepts every falsy value and the
    six stage names, and nothing else: a truthy value that is not one of the
    six strings, whatever its type, is rejected. *)
Theorem apply_point_validity (policy : Policy) :
  (hasValidApplyPoint policy = true
   <-> truthy (applyPoint policy) = false
       \/ exists stage, applyPoint policy = VStr stage /\ stage ∈ _applyPoints)
  /\ (hasValidApplyPoint policy = false
      <-> truthy (applyPoint policy) = true
          /\ forall stage, stage ∈ _applyPoints -> applyPoint policy <> VStr stage).
Proof.
  split; [apply hasValidApplyPoint_spec|].
  rewrite <- not_true_iff_false, hasValidApplyPoint_spec. split.
  - intros H. split.
    + destruct (truthy (applyPoint policy)) eqn:E; [done|]. destruct H. by left.
    + intros stage Hin Heq. apply H. right. by exists stage.
  - intros [Ht Hne] [Hf|(stage & Heq & Hin)]; [congruence|]. by eapply Hne.
Qed.

(** Instance: no default given, no directory: the pre-handler stage is
    exposed and nothing changes. *)
Lemma register_checks_default_witness :
  register VUndefined None initial_state
    = Some (initial_state, None, VStr "onPreHandler")
  /\ (VStr "onPreHandler" = js_or VUndefined (VStr "onPreHandler")
      /\ (exists stage, VStr "onPreHandler" = VStr stage /\ stage ∈ _applyPoints)
      /\ (initial_state = initial_state /\ (None : Failure) = None)).
Proof.
  assert (H : register VUndefined None initial_state
              = Some (initial_state, None, VStr "onPreHandler")) by reflexivity.
  split; [exact H|].
  destruct (register_checks_default VUndefined None initial_state) as (_ & _ & Hb).
  exact (Hb _ _ _ H).
Defined.




